(** * Fixed-income calculation core: a shallow embedding

    The four dashboards of the repository share a small numerical core:
    compounding and discounting ([1_topic1.py]), bond pricing, yield solving
    and accrued interest ([2_topic1.py]), finite-difference risk measures
    ([3_topic1.py]) and repo / forward financing ([4_topic1.py]).

    Numbers.  Python floats are embedded as exact rationals [Q]; results are
    compared with [==].  Rounding, overflow and [inf]/[nan] arithmetic of
    IEEE doubles are therefore outside this development: every statement
    below is a statement about the formulas in exact arithmetic.  Python
    [int]s that the code uses as loop bounds are embedded as [Z].  Where a
    statement is about rounding itself, module [Binary64] embeds the pricer
    over IEEE binary64 floats instead.

    Exceptions.  A Python expression either yields a value or raises; the
    [py] monad records which.  A third outcome, [NonRational], marks a
    result that [Q] cannot hold: a power with a non-integer exponent, which
    is in general irrational, or the [inf] that a numpy scalar operation
    yields where the Python operation raises. *)

From Stdlib Require Import ZArith QArith Qpower Qreduction Qround Qabs List Lia Lqa Bool.
From Stdlib Require Qcanon.
From Stdlib Require PrimFloat Uint63.
Import ListNotations.

Local Open Scope Q_scope.

(** ** Python outcomes *)

Inductive exn : Type :=
| ZeroDivisionError
| IndexError
| RuntimeError
| OverflowError.

Inductive py (A : Type) : Type :=
| Ret (a : A)
| Raise (e : exn)
| NonRational.

Arguments Ret {A} a.
Arguments Raise {A} e.
Arguments NonRational {A}.

Definition bind {A B : Type} (c : py A) (k : A -> py B) : py B :=
  match c with
  | Ret a => k a
  | Raise e => Raise e
  | NonRational => NonRational
  end.

Notation "x <- c ;; k" := (bind c (fun x => k))
  (at level 61, c at next level, right associativity).

(** [try: c except: h] with a bare [except] clause. *)
Definition try_except {A : Type} (c : py A) (h : py A) : py A :=
  match c with
  | Raise _ => h
  | other => other
  end.

Definition returns {A : Type} (c : py A) : Prop := exists a, c = Ret a.
Definition raises {A : Type} (c : py A) : Prop := exists e, c = Raise e.

(** A computation that returns, or fails on a division by zero only. *)
Definition ret_or_zde {A : Type} (c : py A) : Prop :=
  returns c \/ c = Raise ZeroDivisionError.

(** Two outcomes agree: the same failure, or values equal as rationals. *)
Definition same_outcome (c1 c2 : py Q) : Prop :=
  match c1, c2 with
  | Ret a, Ret b => a == b
  | Raise e1, Raise e2 => e1 = e2
  | NonRational, NonRational => True
  | _, _ => False
  end.

(** ** Float primitives in exact arithmetic *)

(** [a / b]: true division, [ZeroDivisionError] on a zero divisor. *)
Definition fdiv (a b : Q) : py Q :=
  if Qeq_bool b 0 then Raise ZeroDivisionError else Ret (a / b).

(** [a < b] on floats. *)
Definition Qlt_bool (a b : Q) : bool := negb (Qle_bool b a).

(** The integer a rational is equal to, if any. *)
Definition integral (q : Q) : option Z :=
  let r := Qred q in
  if Pos.eqb (Qden r) 1 then Some (Qnum r) else None.

(** [b ** n] for an integer exponent: zero to a negative power raises. *)
Definition ipow (b : Q) (n : Z) : py Q :=
  if Qeq_bool b 0 && (n <? 0)%Z then Raise ZeroDivisionError else Ret (b ^ n).

(** [b ** e] for a float exponent. *)
Definition fpow (b e : Q) : py Q :=
  match integral e with
  | Some n => ipow b n
  | None => NonRational
  end.

(** numpy scalars.  The elements of an [ndarray] are numpy floats, and an
    operation with a numpy operand is numpy's: dividing by zero, or raising
    zero to a negative power, warns and yields [inf] instead of raising. *)
Definition np_div (a b : Q) : py Q :=
  if Qeq_bool b 0 then NonRational else Ret (a / b).

Definition np_pow (b e : Q) : py Q :=
  match integral e with
  | Some n => if Qeq_bool b 0 && (n <? 0)%Z then NonRational else Ret (b ^ n)
  | None => NonRational
  end.

(** [int(x)]: truncation towards zero. *)
Definition py_int (x : Q) : Z := Z.quot (Qnum x) (Zpos (Qden x)).

(** [range(a, b)]. *)
Definition range (a b : Z) : list Z :=
  map (fun i => (a + Z.of_nat i)%Z) (seq 0 (Z.to_nat (b - a))).

(** [for x in xs: acc = body(x, acc)], stopping at the first exception. *)
Fixpoint for_each {X S : Type} (xs : list X) (body : X -> S -> py S) (acc : S) : py S :=
  match xs with
  | [] => Ret acc
  | x :: rest => acc' <- body x acc ;; for_each rest body acc'
  end.

(** [xs[i]] for [0 <= i]. *)
Definition getitem {A : Type} (xs : list A) (i : nat) : py A :=
  match nth_error xs i with
  | Some a => Ret a
  | None => Raise IndexError
  end.

(** [np.arange(start, stop, step)] for a non-zero step: the
    [ceil((stop - start) / step)] values [start + i * step]. *)
Definition arange (start stop step : Q) : list Q :=
  map (fun i => start + inject_Z (Z.of_nat i) * step)
      (seq 0 (Z.to_nat (Qceiling ((stop - start) / step)))).

(** [np.linspace(start, stop, num)] for [num >= 2]: [num] evenly spaced
    values, the last of which is [stop]. *)
Definition linspace (start stop : Q) (num : nat) : list Q :=
  let step := (stop - start) / inject_Z (Z.of_nat (num - 1)) in
  map (fun i => start + inject_Z (Z.of_nat i) * step) (seq 0 num).

(** [enumerate(xs)]. *)
Definition enumerate {A : Type} (xs : list A) : list (nat * A) :=
  combine (seq 0 (length xs)) xs.

(** [xs[-1] += v]: [IndexError] on the empty list. *)
Fixpoint add_to_last (xs : list Q) (v : Q) : py (list Q) :=
  match xs with
  | [] => Raise IndexError
  | [x] => Ret [x + v]
  | x :: rest => rest' <- add_to_last rest v ;; Ret (x :: rest')
  end.

(** ** 1_topic1.py: compounding, discounting, cash-flow valuation *)

Module Compounding.

(** [future_value(PV, r, m, T)]: [PV * (1 + r / m) ** N]. *)
Definition future_value (PV r m T : Q) : py Q :=
  let N := T * m in
  d <- fdiv r m ;;
  p <- fpow (1 + d) N ;;
  Ret (PV * p).

(** [future_value_simple(PV, r, T)]. *)
Definition future_value_simple (PV r T : Q) : Q := PV * (1 + r * T).

(** [present_value(FV, r, m, T)]: [FV / (1 + r / m) ** N]. *)
Definition present_value (FV r m T : Q) : py Q :=
  let N := T * m in
  d <- fdiv r m ;;
  p <- fpow (1 + d) N ;;
  fdiv FV p.

(** [discount_factor(r, m, T)]: [1 / (1 + r / m) ** N]. *)
Definition discount_factor (r m T : Q) : py Q :=
  let N := T * m in
  d <- fdiv r m ;;
  p <- fpow (1 + d) N ;;
  fdiv 1 p.

(** [discount_factor(r, m, T)] when [T] is a numpy scalar: [N] is then a
    numpy scalar too, and so are the power and the quotient. *)
Definition discount_factor_np (r m T : Q) : py Q :=
  let N := T * m in
  d <- fdiv r m ;;
  p <- np_pow (1 + d) N ;;
  np_div 1 p.

(** [bond_valuation(coupon, face_value, r, m, T)] returns the triple
    [(PV, cash_flows, times)].  [times] is an [ndarray], so [times[i]] is
    a numpy scalar. *)
Definition bond_valuation (coupon face_value r m T : Q)
  : py (Q * list Q * list Q) :=
  let periods := py_int (T * m) in
  coupon_payment <- fdiv (coupon * face_value) m ;;
  let cash_flows := repeat coupon_payment (Z.to_nat periods) in
  cash_flows <- add_to_last cash_flows face_value ;;
  start <- fdiv 1 m ;;
  step1 <- fdiv 1 m ;;
  step <- fdiv 1 m ;;
  let times := arange start (T + step1) step in
  PV <- for_each (enumerate cash_flows)
          (fun '(i, cf) PV =>
             t <- getitem times i ;;
             df <- discount_factor_np r m t ;;
             Ret (PV + cf * df))
          0 ;;
  Ret (PV, cash_flows, times).

End Compounding.

(** ** 2_topic1.py: bond price, yield to maturity, accrued interest *)

(** A float that may be [np.nan]. *)
Inductive float : Type :=
| Num (q : Q)
| NaN.

(** A [datetime] at midnight, by its proleptic Gregorian day number. *)
Record datetime : Type := { toordinal : Z }.

(** [(a - b).days] *)
Definition days_between (a b : datetime) : Z := (toordinal a - toordinal b)%Z.

Module Valuation.

(** [bond_price(face_value, coupon_rate, ytm, years_to_maturity,
    comp_per_year)] *)
Definition bond_price (face_value coupon_rate ytm : Q)
    (years_to_maturity comp_per_year : Z) : py Q :=
  let periods := (years_to_maturity * comp_per_year)%Z in
  coupon <- fdiv (face_value * coupon_rate) (inject_Z comp_per_year) ;;
  price <- for_each (range 1 (periods + 1))
             (fun t price =>
                d <- fdiv ytm (inject_Z comp_per_year) ;;
                p <- ipow (1 + d) t ;;
                q <- fdiv coupon p ;;
                Ret (price + q))
             0 ;;
  d <- fdiv ytm (inject_Z comp_per_year) ;;
  p <- ipow (1 + d) periods ;;
  q <- fdiv face_value p ;;
  Ret (price + q).

(** The inner [ytm_func(y)] of [calculate_ytm]. *)
Definition ytm_func (face_value coupon_rate price : Q)
    (years_to_maturity comp_per_year : Z) (y : Q) : py Q :=
  b <- bond_price face_value coupon_rate y years_to_maturity comp_per_year ;;
  Ret (b - price).

Section Solver.

(** [scipy.optimize.newton(func, x0, maxiter=...)] is library code: it
    either returns a root estimate or raises. *)
Variable newton : (Q -> py Q) -> Q -> nat -> py Q.

(** [calculate_ytm(face_value, coupon_rate, price, years_to_maturity,
    comp_per_year)] *)
Definition calculate_ytm (face_value coupon_rate price : Q)
    (years_to_maturity comp_per_year : Z) : py float :=
  try_except
    (y <- newton (ytm_func face_value coupon_rate price
                    years_to_maturity comp_per_year)
                 coupon_rate 100%nat ;;
     Ret (Num y))
    (Ret NaN).

End Solver.

(** [accrued_interest(face_value, coupon_rate, settlement_date,
    last_coupon_date, next_coupon_date, comp_per_year)] *)
Definition accrued_interest (face_value coupon_rate : Q)
    (settlement_date last_coupon_date next_coupon_date : datetime)
    (comp_per_year : Z) : py Q :=
  let days_in_period := days_between next_coupon_date last_coupon_date in
  let days_accrued := days_between settlement_date last_coupon_date in
  coupon_payment <- fdiv (face_value * coupon_rate) (inject_Z comp_per_year) ;;
  fraction <- fdiv (inject_Z days_accrued) (inject_Z days_in_period) ;;
  Ret (coupon_payment * fraction).

(** [zero_coupon_bond_price(face_value, ytm, years_to_maturity)] *)
Definition zero_coupon_bond_price (face_value ytm years_to_maturity : Q) : py Q :=
  p <- fpow (1 + ytm) years_to_maturity ;;
  fdiv face_value p.

End Valuation.

(** ** 3_topic1.py: price sensitivities *)

Module Analytics.

(** [calculate_bond_price(face_value, coupon_rate, ytm, years_to_maturity,
    periods_per_year=2)] *)
Definition calculate_bond_price (face_value coupon_rate ytm : Q)
    (years_to_maturity periods_per_year : Z) : py Q :=
  period_rate <- fdiv ytm (inject_Z periods_per_year) ;;
  let n_periods := (years_to_maturity * periods_per_year)%Z in
  coupon <- fdiv (face_value * coupon_rate) (inject_Z periods_per_year) ;;
  price <- for_each (range 1 (n_periods + 1))
             (fun t price =>
                p <- ipow (1 + period_rate) t ;;
                q <- fdiv coupon p ;;
                Ret (price + q))
             0 ;;
  p <- ipow (1 + period_rate) n_periods ;;
  q <- fdiv face_value p ;;
  Ret (price + q).

(** The value of the defaulted parameter [periods_per_year]. *)
Definition default_periods_per_year : Z := 2.

(** One basis point, the literal [0.0001]. *)
Definition bp : Q := 1 # 10000.

(** [pv01(face_value, coupon_rate, ytm, years_to_maturity)] *)
Definition pv01 (face_value coupon_rate ytm : Q) (years_to_maturity : Z) : py Q :=
  price_base <- calculate_bond_price face_value coupon_rate ytm
                  years_to_maturity default_periods_per_year ;;
  price_shift <- calculate_bond_price face_value coupon_rate (ytm + bp)
                   years_to_maturity default_periods_per_year ;;
  Ret ((price_base - price_shift) * 100).

(** [pvbp(face_value, coupon_rate, ytm, years_to_maturity)] *)
Definition pvbp (face_value coupon_rate ytm : Q) (years_to_maturity : Z) : py Q :=
  price_base <- calculate_bond_price face_value coupon_rate ytm
                  years_to_maturity default_periods_per_year ;;
  price_shift <- calculate_bond_price face_value (coupon_rate + bp) ytm
                   years_to_maturity default_periods_per_year ;;
  Ret ((price_shift - price_base) * 100).

(** [convexity(face_value, coupon_rate, ytm, years_to_maturity)] *)
Definition convexity (face_value coupon_rate ytm : Q) (years_to_maturity : Z) : py Q :=
  price_up <- calculate_bond_price face_value coupon_rate (ytm + bp)
                years_to_maturity default_periods_per_year ;;
  price_base <- calculate_bond_price face_value coupon_rate ytm
                  years_to_maturity default_periods_per_year ;;
  price_down <- calculate_bond_price face_value coupon_rate (ytm - bp)
                  years_to_maturity default_periods_per_year ;;
  sq <- ipow bp 2 ;;
  fdiv ((price_up + price_down - 2 * price_base) * 100) (price_base * sq).

End Analytics.

(** ** 4_topic1.py: repo and forward financing *)

Module Financing.

(** [calculate_repo_transaction(principal, repo_rate, days)] *)
Definition calculate_repo_transaction (principal repo_rate days : Q) : Q :=
  if Qle_bool days 0 || Qlt_bool repo_rate 0 || Qle_bool principal 0
  then 0
  else
    let interest := principal * repo_rate * days / 360 in
    let repayment := principal + interest in
    repayment.

(** [calculate_forward_price(dirty_price, repo_rate, days_to_forward,
    coupon=0, days_to_coupon=0)] *)
Definition calculate_forward_price
    (dirty_price repo_rate days_to_forward coupon days_to_coupon : Q) : Q :=
  if Qle_bool days_to_forward 0 then dirty_price
  else
    let financing_cost := dirty_price * repo_rate * days_to_forward / 360 in
    let coupon_fv :=
      if Qlt_bool days_to_coupon days_to_forward && Qlt_bool 0 days_to_coupon
      then coupon * (1 + repo_rate * (days_to_forward - days_to_coupon) / 360)
      else 0 in
    let forward_dirty :=
      dirty_price * (1 + repo_rate * days_to_forward / 360) - coupon_fv in
    forward_dirty.


(** [calculate_roll_down(current_yield, historical_yields)] *)
Definition calculate_roll_down (current_yield : Q) (historical_yields : list Q) : Q :=
  if Nat.eqb (length historical_yields) 0 then 0
  else current_yield - last historical_yields 0.

(** [repo_adjusted_yield(special_yield, gc_rate, special_rate, holding_days,
    pv01)] *)
Definition repo_adjusted_yield
    (special_yield gc_rate special_rate holding_days pv01 : Q) : py Q :=
  if Qle_bool pv01 0 || Qle_bool holding_days 0 then Ret special_yield
  else
    adjustment <- fdiv ((gc_rate - special_rate) * 365 * holding_days)
                       (360 * pv01 * 100) ;;
    Ret (special_yield + adjustment).

(** The roll-down series of [update_plots]: the roll-down against every
    prefix [historical_yields[:i+1]] of ten yields spaced from
    [current_yield - 0.02] to [current_yield]. *)
Definition roll_downs (current_yield : Q) : list Q :=
  let historical_yields :=
    linspace (current_yield - (2 # 100)) current_yield 10 in
  map (fun i => calculate_roll_down current_yield
                  (firstn (i + 1) historical_yields))
      (seq 0 (length historical_yields)).


End Financing.


(** ** The pricer on binary64 floats

    The same [bond_price], with Python's floats as IEEE binary64 numbers.
    Sums, products and quotients are the correctly rounded primitive
    operations.  [x ** t] is the C library's [pow] behind Python's checks;
    it is not correctly rounded, so it stays a parameter: any function
    that returns a float or raises ([ZeroDivisionError], [OverflowError]). *)

Module Binary64.

(** A Python [int] as a float (exact below [2 ** 53]). *)
Definition of_int (z : Z) : PrimFloat.float :=
  match z with
  | Z0 => PrimFloat.zero
  | Zpos _ => PrimFloat.of_uint63 (Uint63.of_Z z)
  | Zneg p => PrimFloat.opp (PrimFloat.of_uint63 (Uint63.of_Z (Zpos p)))
  end.

(** The literal [a / b] of two small integers, correctly rounded: the
    float that the decimal literal denotes, as [0.05 = 5 / 100]. *)
Definition ratio (a b : Z) : PrimFloat.float :=
  PrimFloat.div (of_int a) (of_int b).

(** [a / b]: [ZeroDivisionError] on a zero divisor of either sign. *)
Definition fdiv (a b : PrimFloat.float) : py PrimFloat.float :=
  if PrimFloat.eqb b PrimFloat.zero then Raise ZeroDivisionError
  else Ret (PrimFloat.div a b).

Section Power.

(** [x ** t] for a float [x] and an [int] [t]. *)
Variable pow : PrimFloat.float -> Z -> py PrimFloat.float.

(** [bond_price(face_value, coupon_rate, ytm, years_to_maturity,
    comp_per_year)] of [2_topic1.py]; [calculate_bond_price] of
    [3_topic1.py] performs the same operations. *)
Definition bond_price (face_value coupon_rate ytm : PrimFloat.float)
    (years_to_maturity comp_per_year : Z) : py PrimFloat.float :=
  let periods := (years_to_maturity * comp_per_year)%Z in
  coupon <- fdiv (PrimFloat.mul face_value coupon_rate) (of_int comp_per_year) ;;
  price <- for_each (range 1 (periods + 1))
             (fun t price =>
                d <- fdiv ytm (of_int comp_per_year) ;;
                p <- pow (PrimFloat.add PrimFloat.one d) t ;;
                q <- fdiv coupon p ;;
                Ret (PrimFloat.add price q))
             PrimFloat.zero ;;
  d <- fdiv ytm (of_int comp_per_year) ;;
  p <- pow (PrimFloat.add PrimFloat.one d) periods ;;
  q <- fdiv face_value p ;;
  Ret (PrimFloat.add price q).

End Power.

End Binary64.

(** ** The specification's yield solver and period count

    The solver itself is library code ([scipy.optimize.newton]); the
    definitions below follow the specification's description of it and of
    the schedule's period count, and serve as concrete instances. *)

(** Modelled from the spec: the result record of the yield solver, which
    the repository delegates to [scipy.optimize.newton] and does not
    contain. *)
Record YieldSolveResult : Type := {
  value : Q;
  converged : bool;
  iterations : nat
}.

(** Modelled from the spec: finite-difference step [1e-6] of the solver. *)
Definition derivative_step : Q := 1 # 1000000.

(** Modelled from the spec: default tolerance [1e-8] of the solver. *)
Definition tolerance : Q := 1 # 100000000.

(** Modelled from the spec: the Newton-Raphson iteration of [solve_yield],
    absent from the repository.  It converges when [|f(y)| < tolerance] or
    [|dy| < tolerance], reports [converged = false] at once on a zero
    finite-difference derivative, and reports it after [max_iterations]
    steps without convergence. *)
Fixpoint solve_yield_from (f : Q -> py Q) (y : Q) (remaining done : nat)
  : py YieldSolveResult :=
  match remaining with
  | O => Ret {| value := y; converged := false; iterations := done |}
  | S remaining' =>
      fy <- f y ;;
      if Qlt_bool (Qabs fy) tolerance
      then Ret {| value := y; converged := true; iterations := done |}
      else
        fh <- f (y + derivative_step) ;;
        let slope := (fh - fy) / derivative_step in
        if Qeq_bool slope 0
        then Ret {| value := y; converged := false; iterations := done |}
        else
          let y' := y - fy / slope in
          if Qlt_bool (Qabs (y' - y)) tolerance
          then Ret {| value := y'; converged := true; iterations := S done |}
          else solve_yield_from f y' remaining' (S done)
  end.

(** Modelled from the spec: [solve_yield(f, initial_guess, max_iterations)],
    absent from the repository. *)
Definition solve_yield (f : Q -> py Q) (initial_guess : Q) (max_iterations : nat)
  : py YieldSolveResult :=
  solve_yield_from f initial_guess max_iterations 0.

(** The solver behind the interface of [scipy.optimize.newton], which
    signals a failure to converge by raising [RuntimeError]. *)
Definition newton_of_solve_yield (f : Q -> py Q) (x0 : Q) (maxiter : nat) : py Q :=
  r <- solve_yield f x0 maxiter ;;
  if converged r then Ret (value r) else Raise RuntimeError.

(** [round(x)]: to the nearest integer, ties to the even one. *)
Definition py_round (x : Q) : Z :=
  let lo := Qfloor x in
  let frac := x - inject_Z lo in
  if Qlt_bool frac (1 # 2) then lo
  else if Qlt_bool (1 # 2) frac then (lo + 1)%Z
  else if Z.even lo then lo else (lo + 1)%Z.

(** The period count as the specification words it:
    [N = round(periods_per_year * years_to_maturity)]. *)
Definition spec_period_count (periods_per_year years_to_maturity : Q) : Z :=
  py_round (periods_per_year * years_to_maturity).

(** ** Closed forms

    What the pricing loops compute when no division fails; the proofs relate
    the monadic code to these sums. *)

(** The running [price] after the coupon loop over the periods [ts], for a
    per-period discount base [b]. *)
Definition discounted_coupons (coupon b : Q) (ts : list Z) (price : Q) : Q :=
  fold_left (fun price t => price + coupon / b ^ t) ts price.

(** Coupons of every period of [1..n], plus the face value at [n]. *)
Definition price_formula (face_value coupon b : Q) (n : Z) : Q :=
  discounted_coupons coupon b (range 1 (n + 1)) 0 + face_value / b ^ n.


(** * Properties *)

(** ** Comparison tests and outcomes *)

Lemma Qlt_bool_iff (a b : Q) : Qlt_bool a b = true <-> a < b.
Proof.
  unfold Qlt_bool. rewrite negb_true_iff.
  destruct (Qle_bool b a) eqn:E.
  - apply Qle_bool_iff in E. split; [discriminate | intros H; exfalso; lra].
  - split; [intros _ | reflexivity].
    apply Qnot_le_lt. intros H. apply Qle_bool_iff in H. congruence.
Qed.

Lemma Qle_bool_true (a b : Q) : a <= b -> Qle_bool a b = true.
Proof. apply Qle_bool_iff. Qed.

Lemma Qle_bool_false (a b : Q) : b < a -> Qle_bool a b = false.
Proof.
  intros H. destruct (Qle_bool a b) eqn:E; [|reflexivity].
  apply Qle_bool_iff in E. lra.
Qed.

Lemma Qlt_bool_true (a b : Q) : a < b -> Qlt_bool a b = true.
Proof. apply Qlt_bool_iff. Qed.

Lemma Qlt_bool_false (a b : Q) : b <= a -> Qlt_bool a b = false.
Proof. intros H. unfold Qlt_bool. now rewrite Qle_bool_true. Qed.

Lemma Qeq_bool_false (a b : Q) : ~ a == b -> Qeq_bool a b = false.
Proof.
  intros H. destruct (Qeq_bool a b) eqn:E; [|reflexivity].
  apply Qeq_bool_iff in E. contradiction.
Qed.

Lemma Qeq_bool_true (a b : Q) : a == b -> Qeq_bool a b = true.
Proof. apply Qeq_bool_iff. Qed.

Lemma fdiv_ret (a b : Q) : ~ b == 0 -> fdiv a b = Ret (a / b).
Proof. intros H. unfold fdiv. now rewrite Qeq_bool_false. Qed.

Lemma fdiv_zero (a b : Q) : b == 0 -> fdiv a b = Raise ZeroDivisionError.
Proof. intros H. unfold fdiv. now rewrite Qeq_bool_true. Qed.

Lemma ipow_ret (b : Q) (n : Z) : ~ b == 0 -> ipow b n = Ret (b ^ n).
Proof. intros H. unfold ipow. now rewrite Qeq_bool_false. Qed.

Lemma ipow_nonneg (b : Q) (n : Z) : (0 <= n)%Z -> ipow b n = Ret (b ^ n).
Proof.
  intros H. unfold ipow.
  replace (n <? 0)%Z with false by (symmetry; apply Z.ltb_ge; exact H).
  now rewrite andb_false_r.
Qed.

(** Decide the comparison tests of the goal from the hypotheses. *)
Ltac pytests :=
  repeat match goal with
  | |- context [Qle_bool ?a ?b] =>
      first [ rewrite (Qle_bool_true a b) by (assumption || lra)
            | rewrite (Qle_bool_false a b) by (assumption || lra) ]
  | |- context [Qlt_bool ?a ?b] =>
      first [ rewrite (Qlt_bool_true a b) by (assumption || lra)
            | rewrite (Qlt_bool_false a b) by (assumption || lra) ]
  end;
  cbn [orb andb negb].

(** ** Financing *)

Section FinancingFacts.

Import Financing.

(** C3. [calculate_forward_price] returns [dirty_price] unchanged when
    [days_to_forward <= 0]; otherwise it returns
    [dirty_price * (1 + repo_rate * days_to_forward / 360)], less the
    forward-valued coupon
    [coupon * (1 + repo_rate * (days_to_forward - days_to_coupon) / 360)]
    exactly when [0 < days_to_coupon < days_to_forward], and less nothing
    otherwise. *)
Theorem forward_price_cases
    (dirty_price repo_rate days_to_forward coupon days_to_coupon : Q) :
  (days_to_forward <= 0 ->
   calculate_forward_price dirty_price repo_rate days_to_forward coupon
     days_to_coupon = dirty_price) /\
  (0 < days_to_forward -> 0 < days_to_coupon < days_to_forward ->
   calculate_forward_price dirty_price repo_rate days_to_forward coupon
     days_to_coupon
   == dirty_price * (1 + repo_rate * days_to_forward / 360)
      - coupon * (1 + repo_rate * (days_to_forward - days_to_coupon) / 360)) /\
  (0 < days_to_forward -> ~ 0 < days_to_coupon < days_to_forward ->
   calculate_forward_price dirty_price repo_rate days_to_forward coupon
     days_to_coupon
   == dirty_price * (1 + repo_rate * days_to_forward / 360)).
Proof.
  unfold calculate_forward_price. repeat split.
  - intros H. now rewrite Qle_bool_true.
  - intros Hf [Hc1 Hc2]. pytests. reflexivity.
  - intros Hf Hc. rewrite (Qle_bool_false _ _ Hf).
    destruct (Qlt_bool days_to_coupon days_to_forward) eqn:E1;
      destruct (Qlt_bool 0 days_to_coupon) eqn:E2; cbn [andb]; try ring.
    apply Qlt_bool_iff in E1. apply Qlt_bool_iff in E2.
    exfalso. apply Hc. split; assumption.
Qed.

Lemma forward_price_cases_witness :
  calculate_forward_price 1000 (35 # 1000) 0 25 10 = 1000 /\
  calculate_forward_price 1000 (35 # 1000) 90 25 30
  == 1000 * (1 + (35 # 1000) * 90 / 360)
     - 25 * (1 + (35 # 1000) * (90 - 30) / 360) /\
  calculate_forward_price 1000 (35 # 1000) 90 25 120
  == 1000 * (1 + (35 # 1000) * 90 / 360).
Proof.
  split; [|split].
  - apply (proj1 (forward_price_cases 1000 (35 # 1000) 0 25 10)). lra.
  - apply (proj1 (proj2 (forward_price_cases 1000 (35 # 1000) 90 25 30))); lra.
  - apply (proj2 (proj2 (forward_price_cases 1000 (35 # 1000) 90 25 120))); lra.
Defined.



(** C10. With a zero coupon amount the forward price is the repo repayment
    on the same terms, whatever [days_to_coupon] is, for
    [dirty_price > 0], [repo_rate >= 0] and [days > 0]. *)
Theorem forward_zero_coupon_is_repo
    (dirty_price repo_rate days days_to_coupon : Q) :
  0 < dirty_price -> 0 <= repo_rate -> 0 < days ->
  calculate_forward_price dirty_price repo_rate days 0 days_to_coupon
  == calculate_repo_transaction dirty_price repo_rate days.
Proof.
  intros Hp Hr Hd.
  unfold calculate_forward_price, calculate_repo_transaction. pytests.
  destruct (Qlt_bool days_to_coupon days && Qlt_bool 0 days_to_coupon);
    cbv zeta; field.
Qed.

Lemma forward_zero_coupon_is_repo_witness :
  calculate_forward_price 1000000 (35 # 1000) 30 0 10
  == calculate_repo_transaction 1000000 (35 # 1000) 30.
Proof. apply forward_zero_coupon_is_repo; lra. Defined.

End FinancingFacts.

(** ** Loops and powers *)

Lemma for_each_ext {X S : Type} (f g : X -> S -> py S) (xs : list X) (acc : S) :
  (forall x s, f x s = g x s) -> for_each xs f acc = for_each xs g acc.
Proof.
  intros Hfg. revert acc.
  induction xs as [|x xs IH]; intros acc; cbn; [reflexivity|].
  rewrite Hfg. destruct (g x acc); cbn; auto.
Qed.

Lemma range_lower (a b : Z) : Forall (fun t => (a <= t)%Z) (range a b).
Proof.
  unfold range. apply Forall_forall. intros t Ht.
  apply in_map_iff in Ht. destruct Ht as [i [<- _]]. lia.
Qed.

(** Powers grow with a positive base. *)
Lemma Qpower_base_le (a b : Q) (n : Z) :
  0 < a -> a <= b -> (0 <= n)%Z -> a ^ n <= b ^ n.
Proof.
  intros Ha Hab Hn.
  assert (Han : 0 < a ^ n) by now apply Qpower_0_lt.
  assert (H1 : 1 <= (b / a) ^ n).
  { apply Qpower_1_le; [|exact Hn]. apply Qle_shift_div_l; lra. }
  rewrite Qdiv_power in H1.
  apply (Qmult_le_compat_r _ _ (a ^ n)) in H1; [|lra].
  rewrite Qmult_1_l in H1.
  setoid_replace (b ^ n / a ^ n * a ^ n) with (b ^ n) in H1 by (field; lra).
  exact H1.
Qed.

Lemma Qpower_base_lt (a b : Q) (n : Z) :
  0 < a -> a < b -> (0 < n)%Z -> a ^ n < b ^ n.
Proof.
  intros Ha Hab Hn.
  assert (Han : 0 < a ^ n) by now apply Qpower_0_lt.
  assert (H1 : 1 < (b / a) ^ n).
  { apply Qpower_1_lt; [|exact Hn]. apply Qlt_shift_div_l; lra. }
  rewrite Qdiv_power in H1.
  apply (Qmult_lt_compat_r _ _ (a ^ n)) in H1; [|lra].
  rewrite Qmult_1_l in H1.
  setoid_replace (b ^ n / a ^ n * a ^ n) with (b ^ n) in H1 by (field; lra).
  exact H1.
Qed.

(** Discounting a non-negative amount by a larger positive base gives less. *)
Lemma discount_le (x a b : Q) (n : Z) :
  0 <= x -> 0 < a -> a <= b -> (0 <= n)%Z -> x / b ^ n <= x / a ^ n.
Proof.
  intros Hx Ha Hab Hn.
  assert (Han : 0 < a ^ n) by now apply Qpower_0_lt.
  assert (Hbn : 0 < b ^ n) by (apply Qpower_0_lt; lra).
  pose proof (Qpower_base_le a b n Ha Hab Hn) as Hle.
  apply Qle_shift_div_l; [exact Han|].
  setoid_replace (x / b ^ n * a ^ n) with (x * (a ^ n / b ^ n)) by (field; lra).
  assert (Hr : a ^ n / b ^ n <= 1) by (apply Qle_shift_div_r; lra).
  revert Hr. generalize (a ^ n / b ^ n). intros r Hr. nra.
Qed.

Lemma discount_lt (x a b : Q) (n : Z) :
  0 < x -> 0 < a -> a < b -> (0 < n)%Z -> x / b ^ n < x / a ^ n.
Proof.
  intros Hx Ha Hab Hn.
  assert (Han : 0 < a ^ n) by now apply Qpower_0_lt.
  assert (Hbn : 0 < b ^ n) by (apply Qpower_0_lt; lra).
  pose proof (Qpower_base_lt a b n Ha Hab Hn) as Hlt.
  apply Qlt_shift_div_l; [exact Han|].
  setoid_replace (x / b ^ n * a ^ n) with (x * (a ^ n / b ^ n)) by (field; lra).
  assert (Hr : a ^ n / b ^ n < 1) by (apply Qlt_shift_div_r; lra).
  revert Hr. generalize (a ^ n / b ^ n). intros r Hr. nra.
Qed.

(** ** Bond pricing *)

Section PricingFacts.

Import Valuation Analytics.

(** The coupon loop never fails over a non-zero base. *)
Lemma coupon_loop (coupon b : Q) (ts : list Z) (price : Q) :
  ~ b == 0 ->
  for_each ts
    (fun t price => p <- ipow b t ;; q <- fdiv coupon p ;; Ret (price + q))
    price
  = Ret (discounted_coupons coupon b ts price).
Proof.
  intros Hb. revert price.
  induction ts as [|t ts IH]; intros price; cbn; [reflexivity|].
  rewrite (ipow_ret b t Hb). cbn.
  rewrite fdiv_ret by (apply Qpower_not_0; exact Hb). cbn.
  apply IH.
Qed.

(** The two pricers run the same computation, failures included. *)
Lemma bond_price_unfold (face_value coupon_rate ytm : Q) (years m : Z) :
  bond_price face_value coupon_rate ytm years m
  = calculate_bond_price face_value coupon_rate ytm years m.
Proof.
  unfold bond_price, calculate_bond_price, fdiv.
  destruct (Qeq_bool (inject_Z m) 0); reflexivity.
Qed.

Lemma calculate_bond_price_closed (face_value coupon_rate ytm : Q) (years m : Z) :
  ~ inject_Z m == 0 -> ~ 1 + ytm / inject_Z m == 0 ->
  calculate_bond_price face_value coupon_rate ytm years m
  = Ret (price_formula face_value (face_value * coupon_rate / inject_Z m)
           (1 + ytm / inject_Z m) (years * m)).
Proof.
  intros Hm Hb. unfold calculate_bond_price, price_formula.
  rewrite !(fdiv_ret _ _ Hm). cbn [bind].
  rewrite (coupon_loop _ _ _ _ Hb). cbn [bind].
  rewrite (ipow_ret _ _ Hb). cbn [bind].
  rewrite fdiv_ret by (apply Qpower_not_0; exact Hb).
  reflexivity.
Qed.

Lemma discounted_coupons_le (coupon a b : Q) (ts : list Z) (pa pb : Q) :
  0 <= coupon -> 0 < a -> a <= b -> Forall (fun t => (0 <= t)%Z) ts ->
  pb <= pa ->
  discounted_coupons coupon b ts pb <= discounted_coupons coupon a ts pa.
Proof.
  intros Hc Ha Hab Hts. revert pa pb.
  induction Hts as [|t ts Ht Hts IH]; intros pa pb Hp; cbn; [exact Hp|].
  apply IH. pose proof (discount_le coupon a b t Hc Ha Hab Ht). lra.
Qed.

Lemma price_formula_lt (face_value coupon a b : Q) (n : Z) :
  0 < face_value -> 0 <= coupon -> 0 < a -> a < b -> (1 <= n)%Z ->
  price_formula face_value coupon b n < price_formula face_value coupon a n.
Proof.
  intros HF Hc Ha Hab Hn. unfold price_formula.
  assert (Hle : discounted_coupons coupon b (range 1 (n + 1)) 0
                <= discounted_coupons coupon a (range 1 (n + 1)) 0).
  { apply discounted_coupons_le; try lra.
    eapply Forall_impl; [|apply range_lower]. cbn. intros; lia. }
  pose proof (discount_lt face_value a b n HF Ha Hab ltac:(lia)). lra.
Qed.

(** C9. [bond_price] of the valuation dashboard and [calculate_bond_price]
    of the analytics dashboard return the same price (or fail alike) for
    every face value, coupon rate, yield, integer maturity and integer
    compounding frequency; the default [periods_per_year = 2] of
    [calculate_bond_price] agrees with [bond_price] at [comp_per_year = 2]. *)
Theorem pricers_agree (face_value coupon_rate ytm : Q) (years m : Z) :
  bond_price face_value coupon_rate ytm years m
  = calculate_bond_price face_value coupon_rate ytm years m /\
  calculate_bond_price face_value coupon_rate ytm years default_periods_per_year
  = bond_price face_value coupon_rate ytm years 2.
Proof.
  split.
  - apply bond_price_unfold.
  - symmetry. apply bond_price_unfold.
Qed.

(** C2, in exact arithmetic.  For a bond with positive face value,
    non-negative coupon rate, positive compounding frequency and at least
    one period, the price computed by either pricer is strictly decreasing
    in the yield wherever the per-period base [1 + rate / m] is positive. *)
Theorem price_strictly_decreasing
    (face_value coupon_rate y1 y2 : Q) (years m : Z) :
  0 < face_value -> 0 <= coupon_rate -> (0 < m)%Z -> (1 <= years * m)%Z ->
  0 < 1 + y1 / inject_Z m -> y1 < y2 ->
  exists p1 p2,
    bond_price face_value coupon_rate y1 years m = Ret p1 /\
    bond_price face_value coupon_rate y2 years m = Ret p2 /\
    calculate_bond_price face_value coupon_rate y1 years m = Ret p1 /\
    calculate_bond_price face_value coupon_rate y2 years m = Ret p2 /\
    p2 < p1.
Proof.
  intros HF Hc Hm Hn Hb1 Hy.
  assert (HmQ : 0 < inject_Z m) by (change 0 with (inject_Z 0); now rewrite <- Zlt_Qlt).
  assert (Hbase : 1 + y1 / inject_Z m < 1 + y2 / inject_Z m).
  { apply Qplus_lt_r. apply Qmult_lt_compat_r; [|exact Hy].
    now apply Qinv_lt_0_compat. }
  assert (Hcoupon : 0 <= face_value * coupon_rate / inject_Z m).
  { apply Qle_shift_div_l; [exact HmQ|]. nra. }
  eexists. eexists.
  rewrite !bond_price_unfold.
  rewrite !calculate_bond_price_closed by lra.
  repeat split.
  now apply price_formula_lt.
Qed.

Lemma price_strictly_decreasing_witness :
  exists p1 p2,
    bond_price 1000 (5 # 100) (5 # 100) 5 2 = Ret p1 /\
    bond_price 1000 (5 # 100) (6 # 100) 5 2 = Ret p2 /\
    calculate_bond_price 1000 (5 # 100) (5 # 100) 5 2 = Ret p1 /\
    calculate_bond_price 1000 (5 # 100) (6 # 100) 5 2 = Ret p2 /\
    p2 < p1.
Proof.
  apply price_strictly_decreasing; try lra; try lia.
  vm_compute. reflexivity.
Defined.

(** C2 as stated fails on floats.  The yield 0.05 and the next float above
    it give the same per-period base [1 + ytm / 2], hence the same price
    (whatever the power function returns), though the second yield is
    strictly larger; the bond has a positive face value, a positive coupon,
    ten periods and a base above one. *)
Lemma price_ties_on_adjacent_yields :
  let y1 := Binary64.ratio 5 100 in
  let y2 := PrimFloat.next_up y1 in
  PrimFloat.ltb y1 y2 = true /\
  PrimFloat.ltb PrimFloat.one
    (PrimFloat.add PrimFloat.one (PrimFloat.div y1 (Binary64.of_int 2))) = true /\
  forall pow,
    Binary64.bond_price pow (Binary64.of_int 1000) (Binary64.ratio 5 100) y2 5 2
    = Binary64.bond_price pow (Binary64.of_int 1000) (Binary64.ratio 5 100) y1 5 2.
Proof.
  cbv zeta. split; [vm_compute; reflexivity|].
  split; [vm_compute; reflexivity|].
  intros pow. vm_compute. reflexivity.
Qed.

End PricingFacts.

(** ** Which failures the pricers can have *)

Lemma fdiv_ret_or_zde (a b : Q) : ret_or_zde (fdiv a b).
Proof.
  unfold fdiv. destruct (Qeq_bool b 0); [right | left; eexists]; reflexivity.
Qed.

Lemma ipow_ret_or_zde (b : Q) (n : Z) : ret_or_zde (ipow b n).
Proof.
  unfold ipow.
  destruct (Qeq_bool b 0 && (n <? 0)%Z); [right | left; eexists]; reflexivity.
Qed.




(** ** Risk measures *)

Section RiskFacts.

Import Analytics.

Lemma raises_zde {A : Type} (c : py A) :
  ret_or_zde c -> raises c -> c = Raise ZeroDivisionError.
Proof.
  intros [[a ->] | ->] [e He]; [discriminate He | reflexivity].
Qed.




End RiskFacts.

(** ** Accrued interest *)

Section AccruedFacts.

Import Valuation.

Lemma inject_Z_nonzero (z : Z) : z <> 0%Z -> ~ inject_Z z == 0.
Proof.
  intros Hz H. apply Hz. unfold Qeq in H. cbn in H. lia.
Qed.

(** C4, as the code has it.  [accrued_interest] checks no date ordering.
    It fails, with [ZeroDivisionError], exactly when the coupon period has
    zero days or [comp_per_year] is zero; on every other input, whatever
    the order of the three dates, it returns
    [coupon_payment * (days_accrued / days_in_period)] with
    [coupon_payment = face_value * coupon_rate / comp_per_year]. *)
Theorem accrued_interest_cases (face_value coupon_rate : Q)
    (settlement last_coupon next_coupon : datetime) (comp_per_year : Z) :
  (days_between next_coupon last_coupon = 0%Z \/ comp_per_year = 0%Z ->
   accrued_interest face_value coupon_rate settlement last_coupon next_coupon
     comp_per_year = Raise ZeroDivisionError) /\
  (days_between next_coupon last_coupon <> 0%Z -> comp_per_year <> 0%Z ->
   accrued_interest face_value coupon_rate settlement last_coupon next_coupon
     comp_per_year
   = Ret (face_value * coupon_rate / inject_Z comp_per_year
          * (inject_Z (days_between settlement last_coupon)
             / inject_Z (days_between next_coupon last_coupon)))).
Proof.
  unfold accrued_interest. split.
  - intros [Hd | Hc].
    + rewrite Hd.
      destruct (fdiv_ret_or_zde (face_value * coupon_rate)
                  (inject_Z comp_per_year)) as [[cp ->] | ->]; reflexivity.
    + rewrite Hc. reflexivity.
  - intros Hd Hc.
    rewrite (fdiv_ret _ _ (inject_Z_nonzero _ Hc)). cbn [bind].
    rewrite (fdiv_ret _ _ (inject_Z_nonzero _ Hd)). reflexivity.
Qed.

Lemma accrued_interest_cases_witness :
  accrued_interest 1000 (5 # 100) {| toordinal := 738794 |}
    {| toordinal := 738611 |} {| toordinal := 738611 |} 2
  = Raise ZeroDivisionError /\
  accrued_interest 1000 (5 # 100) {| toordinal := 738794 |}
    {| toordinal := 738611 |} {| toordinal := 738977 |} 2
  = Ret (1000 * (5 # 100) / inject_Z 2
         * (inject_Z (738794 - 738611) / inject_Z (738977 - 738611))).
Proof.
  split.
  - apply (proj1 (accrued_interest_cases 1000 (5 # 100) {| toordinal := 738794 |}
                    {| toordinal := 738611 |} {| toordinal := 738611 |} 2)).
    left. reflexivity.
  - apply (proj2 (accrued_interest_cases 1000 (5 # 100) {| toordinal := 738794 |}
                    {| toordinal := 738611 |} {| toordinal := 738977 |} 2)).
    + vm_compute. discriminate.
    + discriminate.
Defined.

(** C4 as stated fails: with the settlement date before the last coupon
    date the call returns a (negative) amount, and with the next coupon
    date before the last one it returns as well. *)
Lemma accrued_interest_unordered_dates_return :
  (exists v,
     accrued_interest 1000 (5 # 100) {| toordinal := 738600 |}
       {| toordinal := 738611 |} {| toordinal := 738977 |} 2 = Ret v /\
     v < 0) /\
  returns
    (accrued_interest 1000 (5 # 100) {| toordinal := 738794 |}
       {| toordinal := 738977 |} {| toordinal := 738611 |} 2).
Proof.
  split.
  - eexists. split; [vm_compute; reflexivity | reflexivity].
  - eexists. vm_compute. reflexivity.
Qed.

End AccruedFacts.

(** ** Yield to maturity *)

Section YieldFacts.

Import Valuation.

(** C1, as the code has it.  Whatever the solver does, [calculate_ytm] does
    not raise; it returns the bare float [NaN], with no result record and no
    convergence flag, exactly when the solver raised, and the solver's root
    estimate otherwise. *)
Theorem calculate_ytm_outcome
    (newton : (Q -> py Q) -> Q -> nat -> py Q)
    (face_value coupon_rate price : Q) (years comp_per_year : Z) :
  let solved :=
    newton (ytm_func face_value coupon_rate price years comp_per_year)
      coupon_rate 100%nat in
  let result :=
    calculate_ytm newton face_value coupon_rate price years comp_per_year in
  ~ raises result /\
  (raises solved <-> result = Ret NaN) /\
  (forall y, solved = Ret y <-> result = Ret (Num y)).
Proof.
  cbv zeta. unfold calculate_ytm, raises.
  destruct (newton _ coupon_rate 100%nat) as [y | e |]; cbn.
  - split; [intros [e H]; discriminate|].
    split; [split; [intros [e H]|intros H]; discriminate|].
    intros y'. split; intros H; inversion H; reflexivity.
  - split; [intros [e' H]; discriminate|].
    split; [split; [reflexivity | intros _; now exists e]|].
    intros y'. split; intros H; discriminate.
  - split; [intros [e H]; discriminate|].
    split; [split; [intros [e H]|intros H]; discriminate|].
    intros y'. split; intros H; discriminate.
Qed.

(** C1 as stated fails.  A bond at maturity has a flat price curve: the
    specification's solver stops on the zero derivative with
    [converged = false], and [calculate_ytm] hands back a bare [NaN]. *)
Lemma calculate_ytm_flat_curve_bare_nan :
  (exists r,
     solve_yield (ytm_func 1000 (5 # 100) 950 0 2) (5 # 100) 100 = Ret r /\
     converged r = false) /\
  calculate_ytm newton_of_solve_yield 1000 (5 # 100) 950 0 2 = Ret NaN.
Proof.
  split.
  - eexists. split; [vm_compute; reflexivity | reflexivity].
  - vm_compute. reflexivity.
Qed.

End YieldFacts.

(** ** Compounding and cash-flow valuation *)

Section CompoundingFacts.

Import Compounding.

Lemma integral_inject_Z (q : Q) (n : Z) : q == inject_Z n -> integral q = Some n.
Proof.
  intros H. unfold integral.
  rewrite (Qred_complete _ _ H).
  rewrite Qcanon.Qred_identity by (cbn; apply Z.gcd_1_r).
  reflexivity.
Qed.

Lemma fpow_integer (b e : Q) (n : Z) :
  e == inject_Z n -> ~ b == 0 -> fpow b e = Ret (b ^ n).
Proof.
  intros He Hb. unfold fpow.
  rewrite (integral_inject_Z _ _ He). now apply ipow_ret.
Qed.

Lemma np_pow_integer (b e : Q) (n : Z) :
  e == inject_Z n -> ~ b == 0 -> np_pow b e = Ret (b ^ n).
Proof.
  intros He Hb. unfold np_pow.
  rewrite (integral_inject_Z _ _ He). now rewrite Qeq_bool_false.
Qed.

Lemma np_div_ret (a b : Q) : ~ b == 0 -> np_div a b = Ret (a / b).
Proof. intros H. unfold np_div. now rewrite Qeq_bool_false. Qed.

(** C8, as the code has it.  The code inverts the discrete convention
    only.  For [m <> 0], a non-zero base [1 + r / m] and an integer number
    of periods [T * m], discounting the discrete future value of [PV]
    returns [PV]. *)
Theorem present_value_of_future_value (PV r m T : Q) (n : Z) :
  ~ m == 0 -> ~ 1 + r / m == 0 -> T * m == inject_Z n ->
  exists FV PV',
    future_value PV r m T = Ret FV /\
    present_value FV r m T = Ret PV' /\
    PV' == PV.
Proof.
  intros Hm Hb HN.
  assert (Hp : ~ (1 + r / m) ^ n == 0) by (apply Qpower_not_0; exact Hb).
  exists (PV * (1 + r / m) ^ n), (PV * (1 + r / m) ^ n / (1 + r / m) ^ n).
  unfold future_value, present_value.
  rewrite (fdiv_ret _ _ Hm). cbn [bind].
  rewrite (fpow_integer _ _ _ HN Hb). cbn [bind].
  rewrite (fdiv_ret _ _ Hp).
  repeat split.
  field. exact Hp.
Qed.

Lemma present_value_of_future_value_witness :
  exists FV PV',
    future_value 100 (5 # 100) 2 2 = Ret FV /\
    present_value FV (5 # 100) 2 2 = Ret PV' /\
    PV' == 100.
Proof.
  apply (present_value_of_future_value 100 (5 # 100) 2 2 4);
    vm_compute; (discriminate || reflexivity).
Defined.

(** C8 as stated fails at a rate of minus one hundred per cent per period:
    the future value is zero and discounting it divides by zero. *)
Lemma present_value_of_future_value_zero_base :
  exists FV,
    future_value 100 (-1) 1 1 = Ret FV /\
    present_value FV (-1) 1 1 = Raise ZeroDivisionError.
Proof.
  eexists. split; vm_compute; reflexivity.
Qed.

End CompoundingFacts.

(** ** The cash-flow schedule of [bond_valuation] *)

Section ScheduleFacts.

Import Compounding.

Lemma add_to_last_repeat (c v : Q) (n : nat) :
  add_to_last (repeat c (S n)) v = Ret (repeat c n ++ [c + v]).
Proof.
  induction n as [|n IH]; [reflexivity|].
  change (repeat c (S (S n))) with (c :: repeat c (S n)).
  cbn [add_to_last]. change (c :: repeat c n) with (repeat c (S n)).
  rewrite IH. reflexivity.
Qed.

Lemma py_int_floor (x : Q) : (0 < py_int x)%Z -> py_int x = Qfloor x.
Proof.
  destruct x as [a d]. unfold py_int, Qfloor. cbn [Qnum Qden]. intros H.
  destruct a as [|a|a].
  - reflexivity.
  - apply Z.quot_div_nonneg; lia.
  - exfalso. change (Z.neg a) with (- Z.pos a)%Z in H.
    rewrite Z.quot_opp_l in H by lia.
    pose proof (Z.quot_pos (Z.pos a) (Z.pos d)). lia.
Qed.

Lemma py_int_le_ceiling (x y : Q) :
  (0 < py_int x)%Z -> x == y -> (py_int x <= Qceiling y)%Z.
Proof.
  intros H Hxy. rewrite (py_int_floor x H), <- Hxy.
  rewrite Zle_Qle.
  apply Qle_trans with x; [apply Qfloor_le | apply Qle_ceiling].
Qed.

Lemma py_int_zero_factor (T m : Q) : m == 0 -> py_int (T * m) = 0%Z.
Proof.
  intros Hm. unfold py_int.
  assert (Hn : Qnum m = 0%Z) by (unfold Qeq in Hm; cbn in Hm; lia).
  cbn. rewrite Hn, Z.mul_0_r. reflexivity.
Qed.

Lemma getitem_arange (start stop step : Q) (i : nat) :
  (i < length (arange start stop step))%nat ->
  getitem (arange start stop step) i
  = Ret (start + inject_Z (Z.of_nat i) * step).
Proof.
  unfold getitem, arange. rewrite length_map, length_seq. intros Hi.
  rewrite nth_error_map, nth_error_seq.
  destruct (Nat.ltb_spec i (Z.to_nat (Qceiling ((stop - start) / step))));
    [reflexivity | lia].
Qed.

(** Discounting at the [i]-th payment date is defined. *)
Lemma discount_factor_at_period (r m : Q) (i : nat) :
  ~ m == 0 -> ~ 1 + r / m == 0 ->
  returns (discount_factor_np r m (1 / m + inject_Z (Z.of_nat i) * (1 / m))).
Proof.
  intros Hm Hb. unfold discount_factor_np.
  rewrite (fdiv_ret _ _ Hm). cbn [bind].
  rewrite (np_pow_integer _ _ (Z.of_nat i + 1)) by
    (try exact Hb; rewrite inject_Z_plus; field; exact Hm).
  cbn [bind]. rewrite np_div_ret by (apply Qpower_not_0; exact Hb).
  eexists. reflexivity.
Qed.

Lemma valuation_loop (r m : Q) (times cfs : list Q) (k : nat) (acc : Q) :
  ~ m == 0 -> ~ 1 + r / m == 0 ->
  (forall i, (i < length times)%nat ->
             getitem times i = Ret (1 / m + inject_Z (Z.of_nat i) * (1 / m))) ->
  (k + length cfs <= length times)%nat ->
  returns
    (for_each (combine (seq k (length cfs)) cfs)
       (fun '(i, cf) PV =>
          t <- getitem times i ;;
          df <- discount_factor_np r m t ;;
          Ret (PV + cf * df))
       acc).
Proof.
  intros Hm Hb Htimes. revert k acc.
  induction cfs as [|cf cfs IH]; intros k acc Hlen; cbn.
  - eexists. reflexivity.
  - cbn in Hlen. rewrite Htimes by lia. cbn [bind].
    destruct (discount_factor_at_period r m k Hm Hb) as [df ->]. cbn [bind].
    apply IH. lia.
Qed.

(** C5, as the code has it.  The period count is [N = int(T * m)],
    truncated towards zero.  With [N <= 0] the call fails ([IndexError] on
    the empty schedule, [ZeroDivisionError] when [m] is zero); with [N > 0]
    and a non-zero base [1 + r / m] it returns [N] cash flows of
    [coupon * face_value / m] each, the last one increased by
    [face_value]. *)
Theorem bond_valuation_schedule (coupon face_value r m T : Q) :
  ((py_int (T * m) <= 0)%Z ->
   raises (bond_valuation coupon face_value r m T)) /\
  ((0 < py_int (T * m))%Z -> ~ 1 + r / m == 0 ->
   exists PV times,
     bond_valuation coupon face_value r m T
     = Ret (PV,
            repeat (coupon * face_value / m) (Z.to_nat (py_int (T * m)) - 1)
            ++ [coupon * face_value / m + face_value],
            times)).
Proof.
  split.
  - intros HN. unfold bond_valuation, raises.
    destruct (fdiv_ret_or_zde (coupon * face_value) m) as [[cp ->] | ->];
      [|eexists; reflexivity].
    cbn [bind]. replace (Z.to_nat (py_int (T * m))) with 0%nat by lia.
    eexists. reflexivity.
  - intros HN Hb.
    assert (Hm : ~ m == 0).
    { intros Hm. rewrite (py_int_zero_factor T m Hm) in HN. lia. }
    unfold bond_valuation.
    rewrite !(fdiv_ret _ _ Hm). cbn [bind].
    destruct (Z.to_nat (py_int (T * m))) as [|n] eqn:En; [lia|].
    rewrite add_to_last_repeat. cbn [bind].
    replace (S n - 1)%nat with n by lia.
    set (cfs := repeat (coupon * face_value / m) n
                ++ [coupon * face_value / m + face_value]).
    set (times := arange (1 / m) (T + 1 / m) (1 / m)).
    assert (Hlen : (0 + length cfs <= length times)%nat).
    { subst cfs times. unfold arange.
      rewrite length_app, repeat_length, length_map, length_seq. cbn.
      assert (py_int (T * m) <= Qceiling ((T + 1 / m - 1 / m) / (1 / m)))%Z.
      { apply py_int_le_ceiling; [exact HN | field; exact Hm]. }
      lia. }
    destruct (valuation_loop r m times cfs 0 0 Hm Hb
                (fun i Hi => getitem_arange _ _ _ i Hi) Hlen) as [PV HPV].
    unfold enumerate. rewrite HPV. cbn [bind].
    exists PV, times. reflexivity.
Qed.

Lemma bond_valuation_schedule_witness :
  raises (bond_valuation (5 # 100) 100 (5 # 100) 1 (1 # 2)) /\
  exists PV times,
    bond_valuation (5 # 100) 100 (5 # 100) 2 2
    = Ret (PV,
           repeat ((5 # 100) * 100 / 2) (Z.to_nat (py_int (2 * 2)) - 1)
           ++ [(5 # 100) * 100 / 2 + 100],
           times).
Proof.
  split.
  - apply (proj1 (bond_valuation_schedule (5 # 100) 100 (5 # 100) 1 (1 # 2))).
    vm_compute. discriminate.
  - apply (proj2 (bond_valuation_schedule (5 # 100) 100 (5 # 100) 2 2)).
    + vm_compute. reflexivity.
    + vm_compute. discriminate.
Defined.

(** C5 as stated fails at half a year of three periods per year: rounding
    one and a half gives two periods, while the code truncates to one and
    returns a single cash flow. *)
Lemma bond_valuation_truncates_period_count :
  spec_period_count 3 (1 # 2) = 2%Z /\
  exists PV cash_flows times,
    bond_valuation (5 # 100) 100 (5 # 100) 3 (1 # 2)
    = Ret (PV, cash_flows, times) /\
    length cash_flows = 1%nat.
Proof.
  split; [reflexivity|].
  do 3 eexists. split; [vm_compute; reflexivity | reflexivity].
Qed.

End ScheduleFacts.

(** ** Worked scenarios *)

Section Scenarios.

(** A five-year 5% semi-annual bond at a 6% yield prices at about 957.35. *)
Example scenario_bond_price :
  exists p,
    Valuation.bond_price 1000 (5 # 100) (6 # 100) 5 2 = Ret p /\
    (95734 # 100) < p < (95735 # 100).
Proof. eexists. split; [vm_compute; reflexivity | split; reflexivity]. Qed.

(** 100 at 5% compounded twice a year for two years grows to about 110.38;
    at simple interest to 110. *)
Example scenario_future_value :
  (exists fv,
     Compounding.future_value 100 (5 # 100) 2 2 = Ret fv /\
     (11038 # 100) < fv < (11039 # 100)) /\
  Compounding.future_value_simple 100 (5 # 100) 2 == 110.
Proof.
  split; [|reflexivity].
  eexists. split; [vm_compute; reflexivity | split; reflexivity].
Qed.

(** A five-year zero-coupon bond at 5% prices at about 783.53. *)
Example scenario_zero_coupon :
  exists p,
    Valuation.zero_coupon_bond_price 1000 (5 # 100) 5 = Ret p /\
    (78352 # 100) < p < (78353 # 100).
Proof. eexists. split; [vm_compute; reflexivity | split; reflexivity]. Qed.

(** Thirty days of repo on one million at 3.5% repay about 1,002,916.67. *)
Example scenario_repo :
  (100291666 # 100)
  < Financing.calculate_repo_transaction 1000000 (35 # 1000) 30
  < (100291667 # 100).
Proof. split; reflexivity. Qed.

(** A par bond solves to its coupon rate at the initial guess. *)
Example scenario_par_bond :
  Valuation.calculate_ytm newton_of_solve_yield 1000 (5 # 100) 1000 5 2
  = Ret (Num (5 # 100)).
Proof. vm_compute. reflexivity. Qed.

End Scenarios.

(** * Further properties of the calculation core *)

(** ** Financing: adjusted yield, roll-down, carry *)

Section FinancingMore.

Import Financing.

Lemma repo_adjusted_yield_value
    (special_yield gc_rate special_rate holding_days pv01 : Q) :
  0 < pv01 -> 0 < holding_days ->
  repo_adjusted_yield special_yield gc_rate special_rate holding_days pv01
  = Ret (special_yield
         + (gc_rate - special_rate) * 365 * holding_days / (360 * pv01 * 100)).
Proof.
  intros Hp Hd. unfold repo_adjusted_yield. pytests.
  rewrite fdiv_ret by lra. reflexivity.
Qed.

(** X1. [repo_adjusted_yield] never fails: its guard [pv01 <= 0] keeps
    the divisor [360 * pv01 * 100] away from zero.  Under the guard it
    returns [special_yield] unchanged; otherwise it adds
    [(gc_rate - special_rate) * 365 * holding_days / (360 * pv01 * 100)]. *)
Theorem repo_adjusted_yield_returns
    (special_yield gc_rate special_rate holding_days pv01 : Q) :
  exists v,
    repo_adjusted_yield special_yield gc_rate special_rate holding_days pv01
    = Ret v /\
    (pv01 <= 0 \/ holding_days <= 0 -> v = special_yield) /\
    (0 < pv01 -> 0 < holding_days ->
     v == special_yield
          + (gc_rate - special_rate) * 365 * holding_days / (360 * pv01 * 100)).
Proof.
  unfold repo_adjusted_yield.
  destruct (Qlt_le_dec 0 pv01) as [Hp | Hp].
  - destruct (Qlt_le_dec 0 holding_days) as [Hd | Hd].
    + pytests. rewrite fdiv_ret by lra. cbn [bind].
      eexists. split; [reflexivity|]. split.
      * intros [H | H]; lra.
      * intros _ _. reflexivity.
    + pytests. eexists. split; [reflexivity|]. split; [reflexivity|].
      intros _ H. lra.
  - pytests. eexists. split; [reflexivity|]. split; [reflexivity|].
    intros H. lra.
Qed.

Lemma repo_adjusted_yield_returns_witness :
  exists v,
    repo_adjusted_yield (4 # 100) (35 # 1000) (2 # 100) 30 8 = Ret v /\
    v == (4 # 100)
         + ((35 # 1000) - (2 # 100)) * 365 * 30 / (360 * 8 * 100).
Proof.
  destruct (repo_adjusted_yield_returns (4 # 100) (35 # 1000) (2 # 100) 30 8)
    as [v [Hv [_ Hval]]].
  exists v. split; [exact Hv | apply Hval; reflexivity].
Defined.

(** X2. With a positive [pv01] and holding period the adjustment has the
    sign of the spread [gc_rate - special_rate]: a bond trading special
    (repo rate below general collateral) gets a higher adjusted yield, and
    with no spread the yield is unchanged. *)
Theorem repo_adjusted_yield_sign
    (special_yield gc_rate special_rate holding_days pv01 : Q) :
  0 < pv01 -> 0 < holding_days ->
  exists v,
    repo_adjusted_yield special_yield gc_rate special_rate holding_days pv01
    = Ret v /\
    (special_rate < gc_rate -> special_yield < v) /\
    (gc_rate < special_rate -> v < special_yield) /\
    (gc_rate == special_rate -> v == special_yield).
Proof.
  intros Hp Hd.
  rewrite (repo_adjusted_yield_value _ _ _ _ _ Hp Hd).
  eexists. split; [reflexivity|].
  assert (Hden : 0 < 360 * pv01 * 100) by lra.
  set (num := (gc_rate - special_rate) * 365 * holding_days) in *.
  repeat split.
  - intros Hs. assert (0 < num / (360 * pv01 * 100)).
    { apply Qlt_shift_div_l; [exact Hden|]. subst num. nra. }
    lra.
  - intros Hs. assert (num / (360 * pv01 * 100) < 0).
    { apply Qlt_shift_div_r; [exact Hden|]. subst num. nra. }
    lra.
  - intros Hs. assert (Hz : num / (360 * pv01 * 100) == 0).
    { subst num. rewrite Hs. field. lra. }
    lra.
Qed.

Lemma repo_adjusted_yield_sign_witness :
  exists v,
    repo_adjusted_yield (4 # 100) (35 # 1000) (2 # 100) 30 8 = Ret v /\
    ((2 # 100) < (35 # 1000) -> (4 # 100) < v) /\
    ((35 # 1000) < (2 # 100) -> v < (4 # 100)) /\
    ((35 # 1000) == (2 # 100) -> v == (4 # 100)).
Proof.
  apply (repo_adjusted_yield_sign (4 # 100) (35 # 1000) (2 # 100) 30 8);
    reflexivity.
Defined.

(** X3. The roll-down of an empty history is zero, and the roll-down
    series drawn by [update_plots] does not depend on the current yield:
    its [i]-th point is [0.02 * (9 - i) / 9], falling from two per cent to
    exactly zero. *)
Theorem roll_downs_fixed_series (current_yield : Q) :
  calculate_roll_down current_yield [] = 0 /\
  Forall2 Qeq (roll_downs current_yield)
    (map (fun i => (2 # 100) * inject_Z (9 - Z.of_nat i) / 9) (seq 0 10)).
Proof.
  split; [reflexivity|].
  unfold roll_downs, linspace, calculate_roll_down.
  cbn [seq map length firstn Nat.add Nat.sub last Nat.eqb Z.of_nat].
  repeat match goal with
  | |- context [inject_Z ?z] =>
      let q := eval vm_compute in (inject_Z z) in
      progress change (inject_Z z) with q
  end.
  repeat (constructor; [field|]).
  constructor.
Qed.



(** X5. For a positive principal and a non-negative rate the repayment
    never falls below the principal and does not decrease with the number
    of days; with a positive rate it grows strictly.  At zero days the
    guard returns 0, not the principal. *)
Theorem repo_repayment_grows (principal repo_rate d1 d2 : Q) :
  0 < principal -> 0 <= repo_rate -> 0 < d1 -> d1 <= d2 ->
  principal <= calculate_repo_transaction principal repo_rate d1 /\
  calculate_repo_transaction principal repo_rate d1
  <= calculate_repo_transaction principal repo_rate d2 /\
  (0 < repo_rate -> d1 < d2 ->
   calculate_repo_transaction principal repo_rate d1
   < calculate_repo_transaction principal repo_rate d2) /\
  calculate_repo_transaction principal repo_rate 0 = 0.
Proof.
  intros Hp Hr H1 H12.
  unfold calculate_repo_transaction. pytests.
  assert (E : forall d, principal * repo_rate * d / 360
                        == principal * repo_rate / 360 * d) by (intros; field).
  rewrite !E.
  assert (Hk : 0 <= principal * repo_rate / 360).
  { apply Qle_shift_div_l; [reflexivity | nra]. }
  repeat split; try nra.
  intros Hr' H12'.
  assert (Hk' : 0 < principal * repo_rate / 360).
  { apply Qlt_shift_div_l; [reflexivity | nra]. }
  nra.
Qed.

Lemma repo_repayment_grows_witness :
  1000000 <= calculate_repo_transaction 1000000 (35 # 1000) 30 /\
  calculate_repo_transaction 1000000 (35 # 1000) 30
  <= calculate_repo_transaction 1000000 (35 # 1000) 60 /\
  calculate_repo_transaction 1000000 (35 # 1000) 30
  < calculate_repo_transaction 1000000 (35 # 1000) 60.
Proof.
  destruct (repo_repayment_grows 1000000 (35 # 1000) 30 60) as [H1 [H2 [H3 _]]];
    try reflexivity; try discriminate.
  split; [exact H1 | split; [exact H2 | apply H3; reflexivity]].
Defined.

End FinancingMore.

(** ** Pricing: par, premium and discount *)

Section ParFacts.

Import Valuation Analytics.

Lemma range_snoc (a b : Z) : (a <= b)%Z -> range a (b + 1) = range a b ++ [b].
Proof.
  intros H. unfold range.
  replace (Z.to_nat (b + 1 - a)) with (S (Z.to_nat (b - a))) by lia.
  rewrite seq_S, map_app. cbn [map]. do 2 f_equal. lia.
Qed.

Lemma range_cons (a b : Z) : (a < b)%Z -> range a b = a :: range (a + 1) b.
Proof.
  intros H. unfold range.
  replace (Z.to_nat (b - a)) with (S (Z.to_nat (b - (a + 1)))) by lia.
  cbn [seq map]. f_equal; [lia|].
  rewrite <- seq_shift, map_map. apply map_ext. intros i. lia.
Qed.

Lemma range_nil (a b : Z) : (b <= a)%Z -> range a b = [].
Proof.
  intros H. unfold range. now replace (Z.to_nat (b - a)) with 0%nat by lia.
Qed.

Lemma discounted_coupons_app (coupon b : Q) (ts us : list Z) (price : Q) :
  discounted_coupons coupon b (ts ++ us) price
  = discounted_coupons coupon b us (discounted_coupons coupon b ts price).
Proof. apply fold_left_app. Qed.

Lemma discounted_coupons_base_eq (coupon a b : Q) (ts : list Z) (pa pb : Q) :
  a == b -> pa == pb ->
  discounted_coupons coupon a ts pa == discounted_coupons coupon b ts pb.
Proof.
  intros Hab. revert pa pb.
  induction ts as [|t ts IH]; intros pa pb Hp; cbn; [exact Hp|].
  apply IH. now rewrite Hab, Hp.
Qed.

Lemma price_formula_base_eq (face_value coupon a b : Q) (n : Z) :
  a == b ->
  price_formula face_value coupon a n == price_formula face_value coupon b n.
Proof.
  intros Hab. unfold price_formula.
  rewrite (discounted_coupons_base_eq coupon a b _ 0 0 Hab (Qeq_refl 0)).
  now rewrite Hab.
Qed.

(** One more period at the par coupon leaves the price unchanged. *)
Lemma price_formula_par (face_value coupon b : Q) (n : Z) :
  ~ b == 0 -> coupon == face_value * (b - 1) -> (0 <= n)%Z ->
  price_formula face_value coupon b n == face_value.
Proof.
  intros Hb Hc. revert n. apply natlike_ind.
  - unfold price_formula. rewrite range_nil by lia. cbn. field.
  - intros n Hn IH. unfold price_formula in *.
    replace (Z.succ n + 1)%Z with ((n + 1) + 1)%Z by lia.
    rewrite range_snoc by lia.
    rewrite discounted_coupons_app. cbn [discounted_coupons fold_left].
    fold (discounted_coupons coupon b (range 1 (n + 1)) 0).
    replace (Z.succ n) with (n + 1)%Z by lia.
    assert (Hu : ~ b ^ n == 0) by (apply Qpower_not_0; exact Hb).
    rewrite (Qpower_plus b n 1 Hb).
    change (b ^ 1) with b.
    setoid_replace (discounted_coupons coupon b (range 1 (n + 1)) 0)
      with (face_value - face_value / b ^ n) by lra.
    rewrite Hc. field. split; assumption.
Qed.

(** X6. A bond whose yield equals its coupon rate prices at par: both
    pricers return the face value, for any non-negative number of periods
    and any non-zero base [1 + coupon_rate / m]. *)
Theorem par_bond_prices_at_face (face_value coupon_rate : Q) (years m : Z) :
  m <> 0%Z -> ~ 1 + coupon_rate / inject_Z m == 0 -> (0 <= years * m)%Z ->
  exists p,
    bond_price face_value coupon_rate coupon_rate years m = Ret p /\
    calculate_bond_price face_value coupon_rate coupon_rate years m = Ret p /\
    p == face_value.
Proof.
  intros Hm Hb Hn.
  assert (HmQ : ~ inject_Z m == 0).
  { intros H. apply Hm. unfold Qeq in H. cbn in H. lia. }
  eexists. rewrite bond_price_unfold.
  rewrite calculate_bond_price_closed by assumption.
  repeat split.
  apply price_formula_par; [exact Hb | field; exact HmQ | exact Hn].
Qed.

Lemma par_bond_prices_at_face_witness :
  exists p,
    bond_price 1000 (5 # 100) (5 # 100) 5 2 = Ret p /\
    calculate_bond_price 1000 (5 # 100) (5 # 100) 5 2 = Ret p /\
    p == 1000.
Proof.
  apply par_bond_prices_at_face; [discriminate | vm_compute; discriminate | lia].
Defined.

(** X7. With a positive face value, a non-negative coupon rate, [m > 0]
    and at least one period, a yield above the coupon rate prices the bond
    below par (a discount bond) and a yield below it prices the bond above
    par (a premium bond), wherever the lower base is positive. *)
Theorem premium_and_discount (face_value coupon_rate ytm : Q) (years m : Z) :
  0 < face_value -> 0 <= coupon_rate -> (0 < m)%Z -> (1 <= years * m)%Z ->
  0 < 1 + ytm / inject_Z m ->
  exists p,
    bond_price face_value coupon_rate ytm years m = Ret p /\
    (coupon_rate < ytm -> p < face_value) /\
    (ytm < coupon_rate -> face_value < p) /\
    (ytm == coupon_rate -> p == face_value).
Proof.
  intros HF Hc Hm Hn Hb.
  assert (HmQ : 0 < inject_Z m)
    by (change 0 with (inject_Z 0); now rewrite <- Zlt_Qlt).
  assert (Hinv : 0 < / inject_Z m) by now apply Qinv_lt_0_compat.
  assert (Hbc : 0 < 1 + coupon_rate / inject_Z m).
  { unfold Qdiv. nra. }
  assert (Hcoupon : 0 <= face_value * coupon_rate / inject_Z m).
  { apply Qle_shift_div_l; [exact HmQ | nra]. }
  assert (Hpar : price_formula face_value
                   (face_value * coupon_rate / inject_Z m)
                   (1 + coupon_rate / inject_Z m) (years * m) == face_value).
  { apply price_formula_par; [lra | field; lra | lia]. }
  eexists. rewrite bond_price_unfold.
  rewrite calculate_bond_price_closed by lra.
  split; [reflexivity|]. repeat split.
  - intros Hy.
    assert (Hlt : 1 + coupon_rate / inject_Z m < 1 + ytm / inject_Z m)
      by (unfold Qdiv; nra).
    pose proof (price_formula_lt face_value _ _ _ (years * m)
                  HF Hcoupon Hbc Hlt Hn).
    lra.
  - intros Hy.
    assert (Hlt : 1 + ytm / inject_Z m < 1 + coupon_rate / inject_Z m)
      by (unfold Qdiv; nra).
    pose proof (price_formula_lt face_value _ _ _ (years * m)
                  HF Hcoupon Hb Hlt Hn).
    lra.
  - intros Hy.
    apply Qeq_trans with (2 := Hpar). apply price_formula_base_eq.
    now rewrite Hy.
Qed.

Lemma premium_and_discount_witness :
  exists p,
    bond_price 1000 (5 # 100) (6 # 100) 5 2 = Ret p /\
    p < 1000.
Proof.
  destruct (premium_and_discount 1000 (5 # 100) (6 # 100) 5 2)
    as [p [Hp [Hlt _]]]; try reflexivity; try discriminate.
  exists p. split; [exact Hp | apply Hlt; reflexivity].
Defined.

End ParFacts.

(** ** Pricing: failures, maturity, zero coupon *)

Section EdgeFacts.

Import Valuation Analytics.

Lemma calculate_bond_price_zero_base
    (face_value coupon_rate ytm : Q) (years m : Z) :
  m <> 0%Z -> 1 + ytm / inject_Z m == 0 -> (years * m <> 0)%Z ->
  calculate_bond_price face_value coupon_rate ytm years m
  = Raise ZeroDivisionError.
Proof.
  intros Hm Hb Hn.
  assert (HmQ : ~ inject_Z m == 0).
  { intros H. apply Hm. unfold Qeq in H. cbn in H. lia. }
  unfold calculate_bond_price.
  rewrite !(fdiv_ret _ _ HmQ). cbn [bind].
  destruct (Z.lt_ge_cases 0 (years * m)) as [Hpos | Hneg].
  - rewrite range_cons by lia. cbn [for_each].
    rewrite ipow_nonneg by lia. cbn [bind].
    change ((1 + ytm / inject_Z m) ^ 1) with (1 + ytm / inject_Z m).
    rewrite (fdiv_zero _ _ Hb). reflexivity.
  - rewrite range_nil by lia. cbn [for_each bind].
    unfold ipow. rewrite (Qeq_bool_true _ _ Hb).
    replace (years * m <? 0)%Z with true by (symmetry; apply Z.ltb_lt; lia).
    reflexivity.
Qed.

Lemma calculate_bond_price_no_periods
    (face_value coupon_rate ytm : Q) (years m : Z) :
  m <> 0%Z -> (years * m = 0)%Z ->
  calculate_bond_price face_value coupon_rate ytm years m
  = Ret (0 + face_value / 1).
Proof.
  intros Hm Hn.
  assert (HmQ : ~ inject_Z m == 0).
  { intros H. apply Hm. unfold Qeq in H. cbn in H. lia. }
  unfold calculate_bond_price.
  rewrite !(fdiv_ret _ _ HmQ). cbn [bind]. rewrite Hn.
  rewrite range_nil by lia. cbn [for_each bind].
  rewrite ipow_nonneg by lia. reflexivity.
Qed.

(** X8. For integer years and frequency, [bond_price] raises
    [ZeroDivisionError] when [comp_per_year] is zero, and when the base
    [1 + ytm / m] is exactly zero with a non-zero period count.  With no
    periods (a bond at maturity) it returns the face value whatever the
    yield, even at a zero base. *)
Theorem bond_price_edge_cases (face_value coupon_rate ytm : Q) (years m : Z) :
  (m = 0%Z \/ (1 + ytm / inject_Z m == 0 /\ (years * m <> 0)%Z) ->
   bond_price face_value coupon_rate ytm years m = Raise ZeroDivisionError) /\
  (m <> 0%Z -> (years * m = 0)%Z ->
   exists p,
     bond_price face_value coupon_rate ytm years m = Ret p /\ p == face_value).
Proof.
  rewrite bond_price_unfold. split.
  - intros [-> | [Hb Hn]]; [reflexivity|].
    destruct (Z.eq_dec m 0) as [-> | Hm]; [reflexivity|].
    now apply calculate_bond_price_zero_base.
  - intros Hm Hn.
    rewrite calculate_bond_price_no_periods by assumption.
    eexists. split; [reflexivity | field].
Qed.

Lemma bond_price_edge_cases_witness :
  bond_price 1000 (5 # 100) (6 # 100) 5 0 = Raise ZeroDivisionError /\
  bond_price 1000 (5 # 100) (-2) 5 2 = Raise ZeroDivisionError /\
  exists p, bond_price 1000 (5 # 100) (-2) 0 2 = Ret p /\ p == 1000.
Proof.
  split; [|split].
  - apply (proj1 (bond_price_edge_cases 1000 (5 # 100) (6 # 100) 5 0)).
    left. reflexivity.
  - apply (proj1 (bond_price_edge_cases 1000 (5 # 100) (-2) 5 2)).
    right. split; [reflexivity | discriminate].
  - apply (proj2 (bond_price_edge_cases 1000 (5 # 100) (-2) 0 2));
      [discriminate | reflexivity].
Defined.

Lemma discounted_coupons_zero (coupon b : Q) (ts : list Z) (price : Q) :
  coupon == 0 -> discounted_coupons coupon b ts price == price.
Proof.
  intros Hc. revert price.
  induction ts as [|t ts IH]; intros price; cbn; [reflexivity|].
  fold (discounted_coupons coupon b ts (price + coupon / b ^ t)).
  rewrite IH, Hc. unfold Qdiv. ring.
Qed.

(** X9. A coupon bond with a zero coupon rate and annual compounding is a
    zero-coupon bond: [bond_price(F, 0, y, T, 1)] and
    [zero_coupon_bond_price(F, y, T)] return equal prices, and fail on the
    same inputs, for every integer maturity [T]. *)
Theorem zero_coupon_is_couponless_bond (face_value ytm : Q) (years : Z) :
  same_outcome
    (bond_price face_value 0 ytm years 1)
    (zero_coupon_bond_price face_value ytm (inject_Z years)).
Proof.
  rewrite bond_price_unfold. unfold zero_coupon_bond_price, fpow.
  rewrite (integral_inject_Z _ _ (Qeq_refl _)).
  assert (Hbase : 1 + ytm / inject_Z 1 == 1 + ytm) by field.
  destruct (Qeq_dec (1 + ytm) 0) as [Hz | Hnz].
  - destruct (Z.eq_dec years 0) as [-> | Hy].
    + rewrite calculate_bond_price_no_periods by lia.
      rewrite ipow_nonneg by lia. cbn. field.
    + rewrite calculate_bond_price_zero_base; [| lia | lra | lia].
      unfold ipow. rewrite (Qeq_bool_true _ _ Hz).
      destruct (years <? 0)%Z; cbn; [reflexivity|].
      rewrite fdiv_zero; [reflexivity|].
      rewrite Hz. now apply Qpower_0.
  - rewrite calculate_bond_price_closed by (try discriminate; lra).
    rewrite (ipow_ret _ _ Hnz). cbn [bind].
    rewrite fdiv_ret by (apply Qpower_not_0; exact Hnz).
    cbn [same_outcome]. unfold price_formula.
    rewrite discounted_coupons_zero by field.
    rewrite Z.mul_1_r, Hbase. ring.
Qed.

(** X10. For an integer maturity [T >= 0], a non-negative face value and
    a non-negative yield the zero-coupon price does not exceed the face
    value; for a positive face value and [T >= 1] it falls strictly as the
    yield rises. *)
Theorem zero_coupon_price_bounds (face_value y1 y2 : Q) (years : Z) :
  0 <= face_value -> 0 <= y1 -> y1 < y2 -> (0 <= years)%Z ->
  exists p1 p2,
    zero_coupon_bond_price face_value y1 (inject_Z years) = Ret p1 /\
    zero_coupon_bond_price face_value y2 (inject_Z years) = Ret p2 /\
    p2 <= p1 /\ p1 <= face_value /\
    (0 < face_value -> (1 <= years)%Z -> p2 < p1).
Proof.
  intros HF Hy1 Hy Hn.
  unfold zero_coupon_bond_price, fpow.
  rewrite (integral_inject_Z _ _ (Qeq_refl _)).
  rewrite !ipow_ret by lra. cbn [bind].
  rewrite !fdiv_ret by (apply Qpower_not_0; lra).
  do 2 eexists. split; [reflexivity|]. split; [reflexivity|].
  repeat split.
  - apply discount_le; try lra; exact Hn.
  - pose proof (discount_le face_value 1 (1 + y1) years HF ltac:(lra) ltac:(lra) Hn) as H.
    rewrite Qpower_1 in H.
    setoid_replace (face_value / 1) with face_value in H by field.
    exact H.
  - intros HF' Hn'. apply discount_lt; try lra; lia.
Qed.

Lemma zero_coupon_price_bounds_witness :
  exists p1 p2,
    zero_coupon_bond_price 1000 (5 # 100) (inject_Z 5) = Ret p1 /\
    zero_coupon_bond_price 1000 (6 # 100) (inject_Z 5) = Ret p2 /\
    p2 < p1 /\ p1 <= 1000.
Proof.
  destruct (zero_coupon_price_bounds 1000 (5 # 100) (6 # 100) 5)
    as [p1 [p2 [H1 [H2 [_ [Hle Hlt]]]]]];
    try reflexivity; try discriminate.
  exists p1, p2. repeat split; try assumption.
  apply Hlt; [reflexivity | lia].
Defined.

End EdgeFacts.

(** ** Risk measures: signs and coupon independence *)

Section RiskSigns.

Import Analytics.

Lemma discounted_coupons_shift (coupon b : Q) (ts : list Z) (price : Q) :
  discounted_coupons coupon b ts price
  == price + discounted_coupons coupon b ts 0.
Proof.
  revert price. induction ts as [|t ts IH]; intros price; cbn; [ring|].
  fold (discounted_coupons coupon b ts (price + coupon / b ^ t)).
  fold (discounted_coupons coupon b ts (0 + coupon / b ^ t)).
  rewrite (IH (price + coupon / b ^ t)), (IH (0 + coupon / b ^ t)). ring.
Qed.

Lemma discounted_coupons_scale (coupon b : Q) (ts : list Z) :
  discounted_coupons coupon b ts 0
  == coupon * discounted_coupons 1 b ts 0.
Proof.
  induction ts as [|t ts IH]; cbn; [ring|].
  fold (discounted_coupons coupon b ts (0 + coupon / b ^ t)).
  fold (discounted_coupons 1 b ts (0 + 1 / b ^ t)).
  rewrite (discounted_coupons_shift coupon), (discounted_coupons_shift 1), IH.
  unfold Qdiv. ring.
Qed.

Lemma discounted_coupons_ge (coupon b : Q) (ts : list Z) (price : Q) :
  0 <= coupon -> 0 < b ->
  price <= discounted_coupons coupon b ts price.
Proof.
  intros Hc Hb. revert price.
  induction ts as [|t ts IH]; intros price; cbn; [apply Qle_refl|].
  fold (discounted_coupons coupon b ts (price + coupon / b ^ t)).
  apply Qle_trans with (price + coupon / b ^ t); [|apply IH].
  assert (0 <= coupon / b ^ t).
  { apply Qle_shift_div_l; [now apply Qpower_0_lt | lra]. }
  lra.
Qed.

(** The annuity factor of at least one period is positive. *)
Lemma annuity_positive (b : Q) (n : Z) :
  0 < b -> (1 <= n)%Z -> 0 < discounted_coupons 1 b (range 1 (n + 1)) 0.
Proof.
  intros Hb Hn. rewrite range_cons by lia. cbn.
  fold (discounted_coupons 1 b (range (1 + 1) (n + 1)) (0 + 1 / b ^ 1)).
  apply Qlt_le_trans with (0 + 1 / b ^ 1);
    [|apply discounted_coupons_ge; lra].
  change (b ^ 1) with b.
  assert (0 < 1 / b) by (apply Qlt_shift_div_l; lra). lra.
Qed.

Lemma price_formula_positive (face_value coupon b : Q) (n : Z) :
  0 < face_value -> 0 <= coupon -> 0 < b ->
  0 < price_formula face_value coupon b n.
Proof.
  intros HF Hc Hb. unfold price_formula.
  pose proof (discounted_coupons_ge coupon b (range 1 (n + 1)) 0 Hc Hb).
  assert (0 < face_value / b ^ n).
  { apply Qlt_shift_div_l; [now apply Qpower_0_lt | lra]. }
  lra.
Qed.

Lemma half_positive (x : Q) : 0 <= x -> 0 <= x / inject_Z 2.
Proof. intros H. apply Qle_shift_div_l; [reflexivity | lra]. Qed.

(** X11. For a bond with a positive face value, a non-negative coupon
    rate, at least one year to maturity and a positive base [1 + ytm / 2],
    [pv01] returns a strictly positive number: a one basis point rise in
    yield always lowers the price. *)
Theorem pv01_positive (face_value coupon_rate ytm : Q) (years : Z) :
  0 < face_value -> 0 <= coupon_rate -> (1 <= years)%Z ->
  0 < 1 + ytm / inject_Z 2 ->
  exists v, pv01 face_value coupon_rate ytm years = Ret v /\ 0 < v.
Proof.
  intros HF Hc Hy Hb.
  assert (Hbp : 1 + ytm / inject_Z 2 < 1 + (ytm + bp) / inject_Z 2).
  { unfold bp, Qdiv. change (/ inject_Z 2) with (1 # 2). lra. }
  unfold pv01, default_periods_per_year.
  rewrite !calculate_bond_price_closed by (try discriminate; lra).
  cbn [bind]. eexists. split; [reflexivity|].
  assert (Hcoupon : 0 <= face_value * coupon_rate / inject_Z 2)
    by (apply half_positive; nra).
  pose proof (price_formula_lt face_value _ _ _ (years * 2)
                HF Hcoupon Hb Hbp ltac:(lia)).
  lra.
Qed.

Lemma pv01_positive_witness :
  exists v, pv01 1000 (5 # 100) (6 # 100) 5 = Ret v /\ 0 < v.
Proof.
  apply pv01_positive; try reflexivity; discriminate.
Defined.

(** X12. [pvbp] does not depend on the coupon rate it is given: the
    price is affine in the coupon, so the one basis point coupon bump is
    worth [100 * face_value * 0.0001 / 2] per unit of annuity whatever the
    starting coupon.  It is positive for a positive face value, a positive
    base and at least one year. *)
Theorem pvbp_ignores_coupon (face_value c1 c2 ytm : Q) (years : Z) :
  ~ 1 + ytm / inject_Z 2 == 0 ->
  exists v1 v2,
    pvbp face_value c1 ytm years = Ret v1 /\
    pvbp face_value c2 ytm years = Ret v2 /\
    v1 == v2 /\
    (0 < face_value -> 0 < 1 + ytm / inject_Z 2 -> (1 <= years)%Z -> 0 < v1).
Proof.
  intros Hb.
  assert (Hval : forall c,
    (price_formula face_value (face_value * (c + bp) / inject_Z 2)
       (1 + ytm / inject_Z 2) (years * 2)
     - price_formula face_value (face_value * c / inject_Z 2)
         (1 + ytm / inject_Z 2) (years * 2)) * 100
    == 100 * (face_value * bp / inject_Z 2)
       * discounted_coupons 1 (1 + ytm / inject_Z 2)
           (range 1 (years * 2 + 1)) 0).
  { intros c. unfold price_formula.
    rewrite (discounted_coupons_scale (face_value * (c + bp) / inject_Z 2)).
    rewrite (discounted_coupons_scale (face_value * c / inject_Z 2)).
    field. apply Qpower_not_0. exact Hb. }
  unfold pvbp, default_periods_per_year.
  rewrite !calculate_bond_price_closed by (try discriminate; exact Hb).
  cbn [bind]. do 2 eexists.
  split; [reflexivity|]. split; [reflexivity|]. split.
  - rewrite (Hval c1), (Hval c2). reflexivity.
  - intros HF Hpos Hy. rewrite (Hval c1).
    pose proof (annuity_positive _ (years * 2) Hpos ltac:(lia)) as Ha.
    assert (Hk : 0 < 100 * (face_value * bp / inject_Z 2)).
    { unfold bp, Qdiv. change (/ inject_Z 2) with (1 # 2). lra. }
    now apply Qmult_lt_0_compat.
Qed.

Lemma pvbp_ignores_coupon_witness :
  exists v1 v2,
    pvbp 1000 (5 # 100) (6 # 100) 5 = Ret v1 /\
    pvbp 1000 (9 # 100) (6 # 100) 5 = Ret v2 /\
    v1 == v2 /\ 0 < v1.
Proof.
  destruct (pvbp_ignores_coupon 1000 (5 # 100) (9 # 100) (6 # 100) 5)
    as [v1 [v2 [H1 [H2 [He Hp]]]]]; [vm_compute; discriminate|].
  exists v1, v2. repeat split; try assumption.
  apply Hp; [reflexivity | reflexivity | lia].
Defined.

End RiskSigns.

(** ** Risk measures: convexity *)

Section ConvexityFacts.

Import Analytics.

Lemma square_nonneg (a : Q) : 0 <= a * a.
Proof. exact (Qsqr_nonneg a). Qed.

Lemma square_le_reg (x y : Q) : 0 <= x -> 0 < y -> x * x <= y * y -> x <= y.
Proof.
  intros Hx Hy Hsq. apply Qnot_lt_le. intros Hlt.
  assert (y * y < x * x) by (apply Qmult_lt_compat_nonneg; split; lra).
  lra.
Qed.

(** The midpoint inequality for discount factors: discounting at the
    average base gives no more than the average of the two discountings. *)
Lemma inv_pow_convex (lo mid hi : Q) (t : Z) :
  0 < lo -> lo <= hi -> lo + hi == 2 * mid -> (0 <= t)%Z ->
  2 * / mid ^ t <= / hi ^ t + / lo ^ t.
Proof.
  intros Hlo Hle Hmid Ht.
  assert (Hm : 0 < mid) by lra.
  assert (Hhi : 0 < hi) by lra.
  assert (HU : 0 < hi ^ t) by now apply Qpower_0_lt.
  assert (HD : 0 < lo ^ t) by now apply Qpower_0_lt.
  assert (HB : 0 < mid ^ t) by now apply Qpower_0_lt.
  assert (Hprod : hi ^ t * lo ^ t <= mid ^ t * mid ^ t).
  { rewrite <- !Qmult_power.
    assert (H4 : 4 * (mid * mid) == (lo + hi) * (lo + hi))
      by (rewrite Hmid; ring).
    setoid_replace ((lo + hi) * (lo + hi))
      with (4 * (hi * lo) + (hi - lo) * (hi - lo)) in H4 by ring.
    pose proof (square_nonneg (hi - lo)).
    apply Qpower_base_le; [now apply Qmult_lt_0_compat | lra | exact Ht]. }
  revert HU HD HB Hprod.
  generalize (hi ^ t) (lo ^ t) (mid ^ t). intros U D B HU HD HB Hprod.
  assert (Hp : 0 < U * D) by now apply Qmult_lt_0_compat.
  assert (Hs : 0 < B * (U + D)) by (apply Qmult_lt_0_compat; lra).
  assert (Hlin : 2 * (U * D) <= B * (U + D)).
  { apply square_le_reg; [lra | exact Hs |].
    assert (H4 : 4 * (U * D) <= (U + D) * (U + D)).
    { pose proof (square_nonneg (U - D)).
      setoid_replace ((U + D) * (U + D))
        with (4 * (U * D) + (U - D) * (U - D)) by ring.
      lra. }
    assert (H1 : (U * D) * (4 * (U * D)) <= (B * B) * ((U + D) * (U + D))).
    { apply Qmult_le_compat_nonneg; split; lra. }
    setoid_replace (2 * (U * D) * (2 * (U * D)))
      with ((U * D) * (4 * (U * D))) by ring.
    setoid_replace (B * (U + D) * (B * (U + D)))
      with ((B * B) * ((U + D) * (U + D))) by ring.
    exact H1. }
  setoid_replace (/ U + / D) with ((U + D) / (U * D)) by (field; lra).
  apply Qle_shift_div_l; [exact Hp|].
  setoid_replace (2 * / B * (U * D)) with (2 * (U * D) / B) by (field; lra).
  apply Qle_shift_div_r; [exact HB | lra].
Qed.

Lemma discounted_coupons_convex (coupon lo mid hi : Q) (ts : list Z)
    (plo pmid phi : Q) :
  0 <= coupon -> 0 < lo -> lo <= hi -> lo + hi == 2 * mid ->
  Forall (fun t => (0 <= t)%Z) ts ->
  2 * pmid <= phi + plo ->
  2 * discounted_coupons coupon mid ts pmid
  <= discounted_coupons coupon hi ts phi + discounted_coupons coupon lo ts plo.
Proof.
  intros Hc Hlo Hle Hmid Hts. revert plo pmid phi.
  induction Hts as [|t ts Ht Hts IH]; intros plo pmid phi Hp; cbn; [exact Hp|].
  apply IH.
  pose proof (inv_pow_convex lo mid hi t Hlo Hle Hmid Ht) as Hcv.
  unfold Qdiv. nra.
Qed.

Lemma price_formula_convex (face_value coupon lo mid hi : Q) (n : Z) :
  0 <= face_value -> 0 <= coupon -> 0 < lo -> lo <= hi ->
  lo + hi == 2 * mid -> (0 <= n)%Z ->
  2 * price_formula face_value coupon mid n
  <= price_formula face_value coupon hi n
     + price_formula face_value coupon lo n.
Proof.
  intros HF Hc Hlo Hle Hmid Hn. unfold price_formula.
  assert (Hsum : 2 * discounted_coupons coupon mid (range 1 (n + 1)) 0
                 <= discounted_coupons coupon hi (range 1 (n + 1)) 0
                    + discounted_coupons coupon lo (range 1 (n + 1)) 0).
  { apply discounted_coupons_convex; try assumption; try lra.
    eapply Forall_impl; [|apply range_lower]. cbn. intros; lia. }
  pose proof (inv_pow_convex lo mid hi n Hlo Hle Hmid Hn) as Hcv.
  unfold Qdiv. nra.
Qed.

(** X13. For a bond with a positive face value, a non-negative coupon
    rate, a non-negative maturity and a positive base at the lower bumped
    yield, [convexity] returns a non-negative number: the price curve the
    finite difference samples is convex. *)
Theorem convexity_nonnegative (face_value coupon_rate ytm : Q) (years : Z) :
  0 < face_value -> 0 <= coupon_rate -> (0 <= years)%Z ->
  0 < 1 + (ytm - bp) / inject_Z 2 ->
  exists v, convexity face_value coupon_rate ytm years = Ret v /\ 0 <= v.
Proof.
  intros HF Hc Hy Hlo.
  assert (Hhalf : / inject_Z 2 == 1 # 2) by reflexivity.
  assert (Hmid : 0 < 1 + ytm / inject_Z 2).
  { revert Hlo. unfold bp, Qdiv. rewrite Hhalf. lra. }
  assert (Hhi : 0 < 1 + (ytm + bp) / inject_Z 2).
  { revert Hlo. unfold bp, Qdiv. rewrite Hhalf. lra. }
  assert (Hcoupon : 0 <= face_value * coupon_rate / inject_Z 2)
    by (apply half_positive; nra).
  unfold convexity, default_periods_per_year.
  rewrite !calculate_bond_price_closed by (try discriminate; lra).
  cbn [bind]. rewrite ipow_nonneg by lia. cbn [bind].
  set (pu := price_formula _ _ (1 + (ytm + bp) / inject_Z 2) _).
  set (pb := price_formula _ _ (1 + ytm / inject_Z 2) _).
  set (pd := price_formula _ _ (1 + (ytm - bp) / inject_Z 2) _).
  assert (Hpb : 0 < pb) by (apply price_formula_positive; assumption).
  assert (Hcv : 2 * pb <= pu + pd).
  { apply price_formula_convex; try lra; try lia.
    - unfold bp, Qdiv. rewrite Hhalf. lra.
    - unfold bp, Qdiv. rewrite Hhalf. ring. }
  assert (Hden : 0 < pb * bp ^ 2).
  { apply Qmult_lt_0_compat; [exact Hpb | reflexivity]. }
  rewrite fdiv_ret by lra.
  eexists. split; [reflexivity|].
  apply Qle_shift_div_l; [exact Hden | lra].
Qed.

Lemma convexity_nonnegative_witness :
  exists v, convexity 1000 (5 # 100) (6 # 100) 5 = Ret v /\ 0 <= v.
Proof.
  apply convexity_nonnegative; try reflexivity; discriminate.
Defined.

End ConvexityFacts.

(** ** Compounding: discount factors and growth *)

Section DiscountFacts.

Import Compounding.

Lemma fpow_nonneg (b e : Q) (n : Z) :
  e == inject_Z n -> (0 <= n)%Z -> fpow b e = Ret (b ^ n).
Proof.
  intros He Hn. unfold fpow.
  rewrite (integral_inject_Z _ _ He). now apply ipow_nonneg.
Qed.

(** X14. For [m > 0], a non-negative rate and a whole, non-negative
    number of periods [T * m], the discount factor lies in (0, 1]; it is 1
    at time zero, and with a positive rate it is strictly smaller for the
    later of two dates. *)
Theorem discount_factor_decays (r m T1 T2 : Q) (n1 n2 : Z) :
  0 < m -> 0 <= r ->
  T1 * m == inject_Z n1 -> T2 * m == inject_Z n2 -> (0 <= n1 <= n2)%Z ->
  exists d1 d2,
    discount_factor r m T1 = Ret d1 /\
    discount_factor r m T2 = Ret d2 /\
    0 < d2 /\ d2 <= d1 /\ d1 <= 1 /\
    (n1 = 0%Z -> d1 == 1) /\
    (0 < r -> (n1 < n2)%Z -> d2 < d1).
Proof.
  intros Hm Hr H1 H2 Hn.
  assert (Hx : 0 <= r / m) by (apply Qle_shift_div_l; lra).
  set (b := 1 + r / m) in *.
  assert (Hb : 1 <= b) by (subst b; lra).
  assert (Hp1 : 0 < b ^ n1) by (apply Qpower_0_lt; lra).
  assert (Hp2 : 0 < b ^ n2) by (apply Qpower_0_lt; lra).
  unfold discount_factor.
  rewrite (fdiv_ret r m) by lra. cbn [bind]. fold b.
  rewrite (fpow_nonneg _ _ _ H1), (fpow_nonneg _ _ _ H2) by lia.
  cbn [bind]. rewrite !fdiv_ret by lra.
  do 2 eexists. split; [reflexivity|]. split; [reflexivity|].
  assert (Hle : b ^ n1 <= b ^ n2) by (apply Qpower_le_compat_l; [lia | exact Hb]).
  assert (Hone : 1 <= b ^ n1) by (apply Qpower_1_le; [exact Hb | lia]).
  repeat split.
  - apply Qlt_shift_div_l; lra.
  - apply Qle_shift_div_l; [exact Hp1|].
    setoid_replace (1 / b ^ n2 * b ^ n1) with (b ^ n1 / b ^ n2) by (field; lra).
    apply Qle_shift_div_r; lra.
  - apply Qle_shift_div_r; lra.
  - intros ->. cbn. reflexivity.
  - intros Hr' Hlt.
    assert (Hx' : 0 < r / m) by (apply Qlt_shift_div_l; lra).
    assert (Hlt' : b ^ n1 < b ^ n2)
      by (apply Qpower_lt_compat_l; [exact Hlt | subst b; lra]).
    apply Qlt_shift_div_l; [exact Hp1|].
    setoid_replace (1 / b ^ n2 * b ^ n1) with (b ^ n1 / b ^ n2) by (field; lra).
    apply Qlt_shift_div_r; lra.
Qed.

Lemma discount_factor_decays_witness :
  exists d1 d2,
    discount_factor (5 # 100) 2 1 = Ret d1 /\
    discount_factor (5 # 100) 2 2 = Ret d2 /\
    0 < d2 /\ d2 < d1 /\ d1 <= 1.
Proof.
  destruct (discount_factor_decays (5 # 100) 2 1 2 2 4)
    as [d1 [d2 [H1 [H2 [Hpos [_ [Hle [_ Hlt]]]]]]]];
    try reflexivity; try discriminate; try lia.
  exists d1, d2. repeat split; try assumption.
  apply Hlt; [reflexivity | lia].
Defined.

(** X15. In exact arithmetic and for a whole number of periods [T * m],
    discounting a future amount is multiplying it by the discount factor:
    [present_value(FV, r, m, T)] returns [FV * discount_factor(r, m, T)],
    and the two fail together, with [ZeroDivisionError]. *)
Theorem present_value_is_discounting (FV r m T : Q) (n : Z) :
  T * m == inject_Z n ->
  (exists pv df,
     present_value FV r m T = Ret pv /\
     discount_factor r m T = Ret df /\
     pv == FV * df) \/
  (present_value FV r m T = Raise ZeroDivisionError /\
   discount_factor r m T = Raise ZeroDivisionError).
Proof.
  intros HN. unfold present_value, discount_factor, fpow.
  rewrite (integral_inject_Z _ _ HN).
  destruct (Qeq_dec m 0) as [Hm | Hm].
  { right. rewrite (fdiv_zero r m Hm). split; reflexivity. }
  rewrite (fdiv_ret r m Hm). cbn [bind].
  destruct (ipow_ret_or_zde (1 + r / m) n) as [[p ->] | ->];
    [cbn [bind] | right; split; reflexivity].
  destruct (Qeq_dec p 0) as [Hp | Hp].
  { right. rewrite !(fdiv_zero _ p Hp). split; reflexivity. }
  left. rewrite !(fdiv_ret _ p Hp).
  do 2 eexists. split; [reflexivity|]. split; [reflexivity|].
  field. exact Hp.
Qed.

Lemma present_value_is_discounting_witness :
  (exists pv df,
     present_value 100 (5 # 100) 2 2 = Ret pv /\
     discount_factor (5 # 100) 2 2 = Ret df /\
     pv == 100 * df) \/
  (present_value 100 (5 # 100) 2 2 = Raise ZeroDivisionError /\
   discount_factor (5 # 100) 2 2 = Raise ZeroDivisionError).
Proof.
  apply (present_value_is_discounting 100 (5 # 100) 2 2 4). reflexivity.
Defined.

(** Bernoulli's inequality on the compounding base. *)
Lemma compounding_bernoulli (x : Q) (n : nat) :
  -1 <= x -> 1 + inject_Z (Z.of_nat n) * x <= (1 + x) ^ Z.of_nat n.
Proof.
  intros Hx. induction n as [|n IH].
  - change (1 + 0 * x <= 1). lra.
  - rewrite Nat2Z.inj_succ. unfold Z.succ.
    rewrite inject_Z_plus, Qpower_plus' by lia.
    change ((1 + x) ^ 1) with (1 + x).
    revert IH. generalize ((1 + x) ^ Z.of_nat n). intros P IH.
    assert (Hn : 0 <= inject_Z (Z.of_nat n)).
    { change 0 with (inject_Z 0). rewrite <- Zle_Qle. lia. }
    assert (H1 : (1 + inject_Z (Z.of_nat n) * x) * (1 + x) <= P * (1 + x))
      by (apply Qmult_le_compat_r; lra).
    assert (H2 : 0 <= inject_Z (Z.of_nat n) * (x * x)).
    { apply Qmult_le_0_compat; [exact Hn|]. exact (Qsqr_nonneg x). }
    setoid_replace ((1 + inject_Z (Z.of_nat n) * x) * (1 + x))
      with (1 + (inject_Z (Z.of_nat n) + inject_Z 1) * x
            + inject_Z (Z.of_nat n) * (x * x)) in H1 by ring.
    lra.
Qed.

(** X16. Compounding never loses to simple interest: for a non-negative
    [PV], [m > 0], a base [1 + r / m >= 0] and a whole, non-negative number
    of periods [T * m], the discrete future value is at least
    [future_value_simple(PV, r, T)]. *)
Theorem compounding_beats_simple_interest (PV r m T : Q) (n : Z) :
  0 <= PV -> 0 < m -> 0 <= 1 + r / m ->
  T * m == inject_Z n -> (0 <= n)%Z ->
  exists fv,
    future_value PV r m T = Ret fv /\
    future_value_simple PV r T <= fv.
Proof.
  intros HPV Hm Hb HN Hn.
  unfold future_value, future_value_simple.
  rewrite (fdiv_ret r m) by lra. cbn [bind].
  rewrite (fpow_nonneg _ _ _ HN Hn). cbn [bind].
  eexists. split; [reflexivity|].
  pose proof (compounding_bernoulli (r / m) (Z.to_nat n) ltac:(lra)) as HB.
  rewrite Z2Nat.id in HB by exact Hn.
  assert (HrT : inject_Z n * (r / m) == r * T).
  { rewrite <- HN. field. lra. }
  rewrite HrT in HB.
  rewrite (Qmult_comm PV (1 + r * T)), (Qmult_comm PV).
  apply Qmult_le_compat_r; assumption.
Qed.

Lemma compounding_beats_simple_interest_witness :
  exists fv,
    future_value 100 (5 # 100) 2 2 = Ret fv /\
    future_value_simple 100 (5 # 100) 2 <= fv.
Proof.
  apply (compounding_beats_simple_interest 100 (5 # 100) 2 2 4);
    try reflexivity; try discriminate; lia.
Defined.

End DiscountFacts.

(** ** The valuation of dashboard 1 against the pricer of dashboard 2 *)

Section ValuationAgreement.

Import Compounding.

Lemma combine_snoc {A B : Type} (xs : list A) (ys : list B) (x : A) (y : B) :
  length xs = length ys ->
  combine (xs ++ [x]) (ys ++ [y]) = combine xs ys ++ [(x, y)].
Proof.
  revert ys. induction xs as [|a xs IH]; intros [|b ys] Hlen;
    try discriminate; cbn; [reflexivity|].
  f_equal. apply IH. now inversion Hlen.
Qed.

Lemma py_int_inject_Z (a b : Z) : py_int (inject_Z a * inject_Z b) = (a * b)%Z.
Proof. unfold py_int. cbn. apply Z.quot_1_r. Qed.

Lemma discount_factor_np_value (r m : Q) (i : nat) :
  ~ m == 0 -> ~ 1 + r / m == 0 ->
  discount_factor_np r m (1 / m + inject_Z (Z.of_nat i) * (1 / m))
  = Ret (1 / (1 + r / m) ^ (Z.of_nat i + 1)).
Proof.
  intros Hm Hb. unfold discount_factor_np.
  rewrite (fdiv_ret _ _ Hm). cbn [bind].
  rewrite (np_pow_integer _ _ (Z.of_nat i + 1)) by
    (try exact Hb; rewrite inject_Z_plus; field; exact Hm).
  cbn [bind]. apply np_div_ret. apply Qpower_not_0. exact Hb.
Qed.

(** The present value the loop of [bond_valuation] accumulates. *)
Lemma valuation_loop_value (r m : Q) (times cfs : list Q) (k : nat) (acc : Q) :
  ~ m == 0 -> ~ 1 + r / m == 0 ->
  (forall i, (i < length times)%nat ->
             getitem times i = Ret (1 / m + inject_Z (Z.of_nat i) * (1 / m))) ->
  (k + length cfs <= length times)%nat ->
  for_each (combine (seq k (length cfs)) cfs)
    (fun '(i, cf) PV =>
       t <- getitem times i ;;
       df <- discount_factor_np r m t ;;
       Ret (PV + cf * df))
    acc
  = Ret (fold_left
           (fun PV '(i, cf) => PV + cf * (1 / (1 + r / m) ^ (Z.of_nat i + 1)))
           (combine (seq k (length cfs)) cfs) acc).
Proof.
  intros Hm Hb Htimes. revert k acc.
  induction cfs as [|cf cfs IH]; intros k acc Hlen; cbn; [reflexivity|].
  cbn in Hlen. rewrite Htimes by lia. cbn [bind].
  rewrite (discount_factor_np_value r m k Hm Hb). cbn [bind].
  apply IH. lia.
Qed.

(** Equal coupons discounted period by period, as either loop sums them. *)
Lemma level_coupons_sum (cp coupon b : Q) (n k : nat) (a1 a2 : Q) :
  cp == coupon -> a1 == a2 ->
  fold_left (fun PV '(i, cf) => PV + cf * (1 / b ^ (Z.of_nat i + 1)))
    (combine (seq k n) (repeat cp n)) a1
  == discounted_coupons coupon b
       (map (fun i => (1 + Z.of_nat i)%Z) (seq k n)) a2.
Proof.
  intros Hc. unfold discounted_coupons. revert k a1 a2.
  induction n as [|n IH]; intros k a1 a2 Ha;
    cbn [seq repeat combine map fold_left]; [exact Ha|].
  apply IH. rewrite Ha, Hc, (Z.add_comm 1). unfold Qdiv. ring.
Qed.

(** X17. For whole years and a whole compounding frequency [m > 0] with
    at least one period and a non-zero base, the present value returned by
    [bond_valuation] of the first dashboard equals the price returned by
    [bond_price] of the second. *)
Theorem bond_valuation_agrees_with_bond_price
    (coupon face_value r : Q) (m T : Z) :
  (0 < m)%Z -> (1 <= T * m)%Z -> ~ 1 + r / inject_Z m == 0 ->
  exists PV cash_flows times p,
    bond_valuation coupon face_value r (inject_Z m) (inject_Z T)
    = Ret (PV, cash_flows, times) /\
    Valuation.bond_price face_value coupon r T m = Ret p /\
    PV == p.
Proof.
  intros Hm HN Hb.
  assert (HmQ : ~ inject_Z m == 0).
  { intros H. unfold Qeq in H. cbn in H. lia. }
  rewrite bond_price_unfold, calculate_bond_price_closed by assumption.
  unfold bond_valuation. rewrite py_int_inject_Z.
  rewrite !(fdiv_ret _ _ HmQ). cbn [bind].
  destruct (Z.to_nat (T * m)) as [|n] eqn:En; [lia|].
  rewrite add_to_last_repeat. cbn [bind].
  set (cp := coupon * face_value / inject_Z m).
  set (b := 1 + r / inject_Z m) in *.
  set (times := arange (1 / inject_Z m) (inject_Z T + 1 / inject_Z m)
                  (1 / inject_Z m)).
  assert (Hlen : (0 + length (repeat cp n ++ [(cp + face_value)%Q])
                  <= length times)%nat).
  { subst times. unfold arange.
    rewrite length_app, repeat_length, length_map, length_seq. cbn [length].
    assert (Hc : Qceiling ((inject_Z T + 1 / inject_Z m - 1 / inject_Z m)
                           / (1 / inject_Z m)) = (T * m)%Z).
    { rewrite <- (Qceiling_Z (T * m)). apply Qceiling_comp.
      rewrite inject_Z_mult. field. exact HmQ. }
    rewrite Hc. lia. }
  unfold enumerate.
  rewrite (valuation_loop_value r (inject_Z m) times _ 0 0 HmQ Hb
             (fun i Hi => getitem_arange _ _ _ i Hi) Hlen).
  cbn [bind]. do 4 eexists.
  split; [reflexivity|]. split; [reflexivity|].
  rewrite length_app, repeat_length. cbn [length].
  replace (n + 1)%nat with (S n) by lia.
  rewrite seq_S, combine_snoc by (now rewrite length_seq, repeat_length).
  rewrite fold_left_app. cbn [fold_left]. fold b.
  unfold price_formula, range.
  replace (Z.to_nat (T * m + 1 - 1)) with (S n) by lia.
  rewrite seq_S, map_app, discounted_coupons_app.
  cbn [map discounted_coupons fold_left Nat.add].
  fold (discounted_coupons (face_value * coupon / inject_Z m) b
          (map (fun i => (1 + Z.of_nat i)%Z) (seq 0 n)) 0).
  rewrite (level_coupons_sum cp (face_value * coupon / inject_Z m) b n 0 0 0)
    by (try reflexivity; subst cp; field; exact HmQ).
  replace (T * m)%Z with (1 + Z.of_nat n)%Z by lia.
  rewrite (Z.add_comm (Z.of_nat n) 1).
  subst cp. field.
  repeat split; first [exact HmQ | apply Qpower_not_0; exact Hb].
Qed.

Lemma bond_valuation_agrees_with_bond_price_witness :
  exists PV cash_flows times p,
    bond_valuation (5 # 100) 1000 (6 # 100) (inject_Z 2) (inject_Z 5)
    = Ret (PV, cash_flows, times) /\
    Valuation.bond_price 1000 (5 # 100) (6 # 100) 5 2 = Ret p /\
    PV == p.
Proof.
  apply bond_valuation_agrees_with_bond_price;
    [lia | lia | vm_compute; discriminate].
Defined.

End ValuationAgreement.

(** ** Accrued interest within a coupon period *)

Section AccruedBounds.

Import Valuation.

Lemma accrued_interest_value (face_value coupon_rate : Q)
    (settlement last_coupon next_coupon : datetime) (comp_per_year : Z) :
  days_between next_coupon last_coupon <> 0%Z -> comp_per_year <> 0%Z ->
  exists a,
    accrued_interest face_value coupon_rate settlement last_coupon
      next_coupon comp_per_year = Ret a /\
    a == face_value * coupon_rate / inject_Z comp_per_year
         * (inject_Z (days_between settlement last_coupon)
            / inject_Z (days_between next_coupon last_coupon)).
Proof.
  intros Hd Hc. unfold accrued_interest.
  rewrite (fdiv_ret _ (inject_Z comp_per_year))
    by (intros H; unfold Qeq in H; cbn in H; lia).
  cbn [bind].
  rewrite (fdiv_ret _ (inject_Z (days_between next_coupon last_coupon)))
    by (intros H; unfold Qeq in H; cbn in H; lia).
  cbn [bind]. eexists. split; reflexivity.
Qed.

(** X18. For a settlement date inside the coupon period
    ([last <= settlement <= next], [last < next]), non-negative face value
    and coupon rate and [comp_per_year > 0], the accrued interest lies
    between zero and one full coupon payment: zero on the last coupon
    date, the full coupon on the next one. *)
Theorem accrued_interest_within_coupon (face_value coupon_rate : Q)
    (settlement last_coupon next_coupon : datetime) (comp_per_year : Z) :
  0 <= face_value -> 0 <= coupon_rate -> (0 < comp_per_year)%Z ->
  (toordinal last_coupon <= toordinal settlement <= toordinal next_coupon)%Z ->
  (toordinal last_coupon < toordinal next_coupon)%Z ->
  exists a,
    accrued_interest face_value coupon_rate settlement last_coupon
      next_coupon comp_per_year = Ret a /\
    0 <= a <= face_value * coupon_rate / inject_Z comp_per_year /\
    (toordinal settlement = toordinal last_coupon -> a == 0) /\
    (toordinal settlement = toordinal next_coupon ->
     a == face_value * coupon_rate / inject_Z comp_per_year).
Proof.
  intros HF Hc Hm [Hs1 Hs2] Hperiod.
  destruct (accrued_interest_value face_value coupon_rate settlement
              last_coupon next_coupon comp_per_year) as [a [Ha Hval]];
    [unfold days_between; lia | lia |].
  exists a. split; [exact Ha|].
  unfold days_between in Hval.
  set (da := (toordinal settlement - toordinal last_coupon)%Z) in *.
  set (dp := (toordinal next_coupon - toordinal last_coupon)%Z) in *.
  assert (Hdp : 0 < inject_Z dp).
  { change 0 with (inject_Z 0). rewrite <- Zlt_Qlt. lia. }
  assert (Hda : 0 <= inject_Z da).
  { change 0 with (inject_Z 0). rewrite <- Zle_Qle. lia. }
  assert (Hle : inject_Z da <= inject_Z dp) by (rewrite <- Zle_Qle; lia).
  assert (HmQ : 0 < inject_Z comp_per_year).
  { change 0 with (inject_Z 0). rewrite <- Zlt_Qlt. lia. }
  assert (Hcp : 0 <= face_value * coupon_rate / inject_Z comp_per_year).
  { apply Qle_shift_div_l; [exact HmQ|].
    rewrite Qmult_0_l. now apply Qmult_le_0_compat. }
  assert (Hf0 : 0 <= inject_Z da / inject_Z dp)
    by (apply Qle_shift_div_l; lra).
  assert (Hf1 : inject_Z da / inject_Z dp <= 1)
    by (apply Qle_shift_div_r; lra).
  revert Hval Hcp Hf0 Hf1.
  generalize (face_value * coupon_rate / inject_Z comp_per_year).
  intros cp Hval Hcp Hf0 Hf1.
  repeat split.
  - rewrite Hval. now apply Qmult_le_0_compat.
  - rewrite Hval. rewrite <- (Qmult_1_r cp) at 2.
    rewrite !(Qmult_comm cp). apply Qmult_le_compat_r; assumption.
  - intros Heq. rewrite Hval. subst da. rewrite Heq, Z.sub_diag.
    unfold Qdiv. ring.
  - intros Heq. rewrite Hval. subst da dp. rewrite Heq.
    field. lra.
Qed.

Lemma accrued_interest_within_coupon_witness :
  exists a,
    accrued_interest 1000 (5 # 100) {| toordinal := 738794 |}
      {| toordinal := 738611 |} {| toordinal := 738977 |} 2 = Ret a /\
    0 <= a <= 1000 * (5 # 100) / inject_Z 2.
Proof.
  destruct (accrued_interest_within_coupon 1000 (5 # 100)
              {| toordinal := 738794 |} {| toordinal := 738611 |}
              {| toordinal := 738977 |} 2) as [a [Ha [Hb _]]];
    try discriminate; try reflexivity; try (cbn; lia).
  exists a. split; assumption.
Defined.

End AccruedBounds.

(** ** Financing: coupons and the forward-price waterfall *)

Section ForwardMore.

Import Financing.





End ForwardMore.

(** ** Pricing at a zero yield *)

Section ZeroYield.

Import Valuation.




End ZeroYield.
